(** * Signal group-id resolution and membership gate (src/signal/groups.ts)

    A shallow embedding of the module's process-wide caches, of the
    [listGroups] RPC boundary, and of the three public operations
    [resolveSignalGroupId], [checkGroupHasRequiredMember] and
    [invalidateGroupMembershipCache], followed by the properties the
    specification states about them. *)

From Stdlib Require Import ZArith String Ascii List Bool Lia DecimalString.
From stdpp Require Import base option list gmap strings fin_maps.

Local Open Scope string_scope.
Local Open Scope Z_scope.

(** ** JavaScript string primitives used by the module

    Strings are sequences of one-byte characters, which covers what the
    module handles: URLs, phone numbers, uuids and base64 group ids. *)

Module JS.

(** [if (s)] on a string: every string but the empty one is truthy. *)
Definition truthy (s : string) : bool := negb (String.eqb s "").

(** [if (o)] on a [string | null | undefined] value. *)
Definition truthy_opt (o : option string) : bool :=
  match o with
  | Some s => truthy s
  | None => false
  end.

Fixpoint map_chars (f : ascii -> ascii) (s : string) : string :=
  match s with
  | EmptyString => EmptyString
  | String c r => String (f c) (map_chars f r)
  end.

(** [String.prototype.toLowerCase] on ASCII text: [A]..[Z] go to
    [a]..[z], every other character stays. *)
Definition lower_char (c : ascii) : ascii :=
  let n := nat_of_ascii c in
  if ((65 <=? n)%nat && (n <=? 90)%nat)%bool then ascii_of_nat (n + 32) else c.

Definition toLowerCase (s : string) : string := map_chars lower_char s.

(** [s.endsWith(x)]: the last [x.length] characters of [s] are [x]. *)
Definition endsWith (s x : string) : bool :=
  ((String.length x <=? String.length s)%nat
   && String.eqb (substring (String.length s - String.length x) (String.length x) s) x)%bool.

(** Template-literal rendering of a non-negative integer. *)
Definition show_nat (n : nat) : string := NilZero.string_of_uint (Nat.to_uint n).

End JS.

(** ** Data model *)

Record SignalGroupMember := {
  number : option string;
  uuid : option string
}.

Record SignalGroupEntry := {
  id : string;
  name : option string;
  isMember : option bool;
  isBlocked : option bool;
  members : option (list SignalGroupMember)
}.

(** Result type of [parseSignalAllowEntry] (identity.ts), as the module
    consumes it: [{kind: "any"}], [{kind: "phone", e164}], [{kind: "uuid", raw}]. *)
Inductive SignalAllowEntry :=
| AllowAny
| AllowPhone (e164 : string)
| AllowUuid (raw : string).

Definition kind (e : SignalAllowEntry) : string :=
  match e with
  | AllowAny => "any"
  | AllowPhone _ => "phone"
  | AllowUuid _ => "uuid"
  end.

Definition GROUP_ID_CACHE_TTL_MS : Z := 5 * 60 * 1000.
Definition MEMBERSHIP_CACHE_TTL_MS : Z := 60 * 1000.

(** A membership decision: [{ allowed, cachedAt }]. *)
Module Decision.
Record t := mk { allowed : bool; cachedAt : Z }.
End Decision.

(** The module-level variables. *)
Record Caches := {
  cachedGroups : option (list SignalGroupEntry);
  cachedAt : Z;
  cacheAccountKey : string;
  membershipCache : gmap string Decision.t
}.

(** State of a freshly loaded module (also what [_resetCaches] restores). *)
Definition initial : Caches :=
  {| cachedGroups := None; cachedAt := 0; cacheAccountKey := "";
     membershipCache := ∅ |}.

Record Opts := {
  baseUrl : string;
  account : option string;
  timeoutMs : option Z
}.

(** ** The RPC boundary

    [signalRpcRequest] lives in client.ts, which is not among the sources.
    The daemon is a parameter of every run: a function from the request
    to its reply, either a resolved value (an array of groups or something
    that is not an array) or a rejection (timeout, daemon error). *)

Record RpcCall := {
  rpc_method : string;
  rpc_account : option string;
  rpc_baseUrl : string;
  rpc_timeoutMs : Z
}.

Inductive RpcValue :=
| Groups (gs : list SignalGroupEntry)
| NotAnArray.

Inductive RpcReply :=
| Resolved (v : RpcValue)
| Rejected (reason : string).

(** What an operation can throw: the transport's rejection, passed on
    unchanged, or an [Error] built by the module with its message. *)
Inductive Exn :=
| TransportFailure (reason : string)
| Error (message : string).

Inductive Outcome (A : Type) :=
| Returned (a : A)
| Thrown (e : Exn).
Arguments Returned {A} a.
Arguments Thrown {A} e.

(** ** A monad for the module's effects

    An operation reads the clock and the daemon, updates the caches, may
    throw, and issues RPC requests, which are logged in order.  The host
    runs the operations one at a time, so a run is atomic. *)

Record Env := {
  clock : Z;
  daemon : RpcCall -> RpcReply
}.

Record Run (A : Type) := {
  outcome : Outcome A;
  caches : Caches;
  rpcs : list RpcCall
}.
Arguments outcome {A} r.
Arguments caches {A} r.
Arguments rpcs {A} r.

Definition M (A : Type) : Type := Env -> Caches -> Run A.

Definition ret {A} (a : A) : M A :=
  fun _ st => {| outcome := Returned a; caches := st; rpcs := [] |}.

Definition throw {A} (e : Exn) : M A :=
  fun _ st => {| outcome := Thrown e; caches := st; rpcs := [] |}.

Definition bind {A B} (c : M A) (k : A -> M B) : M B :=
  fun env st =>
    let r := c env st in
    match outcome r with
    | Returned a =>
        let r' := k a env (caches r) in
        {| outcome := outcome r'; caches := caches r'; rpcs := rpcs r ++ rpcs r' |}
    | Thrown e => {| outcome := Thrown e; caches := caches r; rpcs := rpcs r |}
    end.

Declare Scope js_scope.
Delimit Scope js_scope with js.
Notation "x <- c ;; k" := (bind c (fun x => k))
  (at level 100, c at next level, right associativity) : js_scope.
Notation "c ;; k" := (bind c (fun _ => k))
  (at level 100, right associativity) : js_scope.

Definition get : M Caches :=
  fun _ st => {| outcome := Returned st; caches := st; rpcs := [] |}.

Definition put (st : Caches) : M unit :=
  fun _ _ => {| outcome := Returned tt; caches := st; rpcs := [] |}.

(** [Date.now()].  An operation reads the clock only before it awaits
    the RPC, in one synchronous stretch: its run has one clock value. *)
Definition Date_now : M Z :=
  fun env st => {| outcome := Returned (clock env); caches := st; rpcs := [] |}.

(** Modelled from the spec: [signalRpcRequest] of client.ts.  The request
    is issued once; a resolved value is returned, a rejection is thrown to
    the caller unchanged. *)
Definition signalRpcRequest (call : RpcCall) : M RpcValue :=
  fun env st =>
    {| outcome := match daemon env call with
                  | Resolved v => Returned v
                  | Rejected reason => Thrown (TransportFailure reason)
                  end;
       caches := st;
       rpcs := [call] |}.

(** ** The module *)

Definition buildAccountKey (baseUrl : string) (account : option string) : string :=
  baseUrl +:+ "|" +:+ default "" account.

(** The request [listGroups] sends: [params.account] is set only when
    [opts.account] is truthy; the timeout defaults to ten seconds. *)
Definition listGroupsCall (opts : Opts) : RpcCall :=
  {| rpc_method := "listGroups";
     rpc_account := if JS.truthy_opt (account opts) then account opts else None;
     rpc_baseUrl := baseUrl opts;
     rpc_timeoutMs := default 10000 (timeoutMs opts) |}.

(** [Array.isArray(result) ? result : []] *)
Definition arrayOrEmpty (result : RpcValue) : list SignalGroupEntry :=
  match result with
  | Groups gs => gs
  | NotAnArray => []
  end.

Definition listGroups (opts : Opts) : M (list SignalGroupEntry) :=
  (result <- signalRpcRequest (listGroupsCall opts);;
   ret (arrayOrEmpty result))%js.

(** The test of both fast paths: a snapshot is held, for this account key,
    younger than the directory TTL. *)
Definition snapshotFresh (st : Caches) (accountKey : string) (now : Z)
  : option (list SignalGroupEntry) :=
  match cachedGroups st with
  | Some groups =>
      if (String.eqb (cacheAccountKey st) accountKey
          && (now - cachedAt st <? GROUP_ID_CACHE_TTL_MS))%bool
      then Some groups else None
  | None => None
  end.

(** [cachedGroups = groups; cachedAt = now; cacheAccountKey = accountKey] *)
Definition withSnapshot (st : Caches) (groups : list SignalGroupEntry) (now : Z)
    (accountKey : string) : Caches :=
  {| cachedGroups := Some groups;
     cachedAt := now;
     cacheAccountKey := accountKey;
     membershipCache := membershipCache st |}.

(** [getCachedGroups({ ...opts, forceFresh })] *)
Definition getCachedGroups (opts : Opts) (forceFresh : bool)
  : M (list SignalGroupEntry) :=
  (let accountKey := buildAccountKey (baseUrl opts) (account opts) in
   now <- Date_now;;
   st <- get;;
   match (if forceFresh then None else snapshotFresh st accountKey now) with
   | Some groups => ret groups
   | None =>
       groups <- listGroups opts;;
       st' <- get;;
       put (withSnapshot st' groups now accountKey);;
       ret groups
   end)%js.

Definition idIs (groupId : string) (g : SignalGroupEntry) : bool :=
  String.eqb (id g) groupId.

Definition idIsLowered (lowered : string) (g : SignalGroupEntry) : bool :=
  String.eqb (JS.toLowerCase (id g)) lowered.

(** The double-quote character around the group id in the messages. *)
Definition dquote : ascii := "034"%char.

Definition notFoundMessage (groupId : string) (known : nat) : string :=
  "Signal group not found: no group matches " +:+ String dquote groupId
  +:+ String dquote " (case-insensitive). "
  +:+ "Known groups: " +:+ JS.show_nat known.

Definition ambiguousMessage (groupId : string) (count : nat) : string :=
  "Signal group ID " +:+ String dquote groupId +:+ String dquote " is ambiguous: "
  +:+ JS.show_nat count +:+ " groups match case-insensitively. "
  +:+ "Provide the exact base64 group ID.".

(** The resolver's fast path: an exact match in a fresh same-key snapshot. *)
Definition exactInFreshSnapshot (st : Caches) (accountKey : string) (now : Z)
    (groupId : string) : option SignalGroupEntry :=
  match snapshotFresh st accountKey now with
  | Some cached => List.find (idIs groupId) cached
  | None => None
  end.

Definition resolveSignalGroupId (groupId : string) (opts : Opts) : M string :=
  (let accountKey := buildAccountKey (baseUrl opts) (account opts) in
   now <- Date_now;;
   st <- get;;
   match exactInFreshSnapshot st accountKey now groupId with
   | Some exact => ret (id exact)
   | None =>
       groups <- getCachedGroups opts true;;
       match List.find (idIs groupId) groups with
       | Some exact => ret (id exact)
       | None =>
           let lowered := JS.toLowerCase groupId in
           let matches := List.filter (idIsLowered lowered) groups in
           match matches with
           | [m] => ret (id m)
           | [] => throw (Error (notFoundMessage groupId (length groups)))
           | _ => throw (Error (ambiguousMessage groupId (length matches)))
           end
       end
   end)%js.

(** [membershipCache.set(cacheKey, { allowed, cachedAt: now })] *)
Definition withDecision (st : Caches) (cacheKey : string) (allowed : bool) (now : Z)
  : Caches :=
  {| cachedGroups := cachedGroups st;
     cachedAt := cachedAt st;
     cacheAccountKey := cacheAccountKey st;
     membershipCache :=
       <[cacheKey := Decision.mk allowed now]> (membershipCache st) |}.

Definition setDecision (cacheKey : string) (allowed : bool) (now : Z) : M unit :=
  (st <- get;; put (withDecision st cacheKey allowed now))%js.

(** The key of a membership decision: [`${accountKey}|${groupId}`]. *)
Definition decisionKey (opts : Opts) (groupId : string) : string :=
  buildAccountKey (baseUrl opts) (account opts) +:+ "|" +:+ groupId.

(** A decision held under [cacheKey] and younger than the gate's TTL. *)
Definition decisionFresh (st : Caches) (cacheKey : string) (now : Z) : option bool :=
  match membershipCache st !! cacheKey with
  | Some cached =>
      if now - Decision.cachedAt cached <? MEMBERSHIP_CACHE_TTL_MS
      then Some (Decision.allowed cached) else None
  | None => None
  end.

(** [groups.find(exact) ?? groups.find(lowered)] *)
Definition findGroup (groupId : string) (groups : list SignalGroupEntry)
  : option SignalGroupEntry :=
  match List.find (idIs groupId) groups with
  | Some g => Some g
  | None => List.find (idIsLowered (JS.toLowerCase groupId)) groups
  end.

Section Gate.

(** The two collaborators the gate consumes: the allow-entry parser of
    identity.ts ([null] is [None]) and the phone normalizer of utils.ts. *)
Variable parseSignalAllowEntry : string -> option SignalAllowEntry.
Variable normalizeE164 : string -> option string.

(** [requiredNumbers.map(parse).filter(entry => entry !== null)] *)
Definition parseRequired (requiredNumbers : list string) : list SignalAllowEntry :=
  omap parseSignalAllowEntry requiredNumbers.

Definition isAny (e : SignalAllowEntry) : bool := String.eqb (kind e) "any".

Definition phoneOf (e : SignalAllowEntry) : option string :=
  match e with AllowPhone e164 => Some e164 | _ => None end.

Definition uuidOf (e : SignalAllowEntry) : option string :=
  match e with AllowUuid raw => Some raw | _ => None end.

Definition requiredPhones (parsed : list SignalAllowEntry) : gset string :=
  list_to_set (omap phoneOf parsed).

Definition requiredUuids (parsed : list SignalAllowEntry) : gset string :=
  list_to_set (omap uuidOf parsed).

(** The callback of [members.some(...)]. *)
Definition memberMatches (phones uuids : gset string) (member : SignalGroupMember)
  : bool :=
  (match number member with
   | Some n =>
       JS.truthy n &&
       match normalizeE164 n with
       | Some normalized => JS.truthy normalized && bool_decide (normalized ∈ phones)
       | None => false
       end
   | None => false
   end
   ||
   match uuid member with
   | Some u => JS.truthy u && bool_decide (u ∈ uuids)
   | None => false
   end)%bool.

Definition checkGroupHasRequiredMember
    (groupId : string) (requiredNumbers : list string) (opts : Opts) : M bool :=
  match requiredNumbers with
  | [] => ret true
  | _ :: _ =>
      (let cacheKey := decisionKey opts groupId in
       now <- Date_now;;
       st <- get;;
       match decisionFresh st cacheKey now with
       | Some allowed => ret allowed
       | None =>
           groups <- getCachedGroups opts false;;
           match findGroup groupId groups with
           | None =>
               setDecision cacheKey false now;;
               ret false
           | Some group =>
               let members := default [] (members group) in
               let parsedRequired := parseRequired requiredNumbers in
               if existsb isAny parsedRequired then
                 setDecision cacheKey true now;;
                 ret true
               else
                 let phones := requiredPhones parsedRequired in
                 let uuids := requiredUuids parsedRequired in
                 let allowed := existsb (memberMatches phones uuids) members in
                 setDecision cacheKey allowed now;;
                 ret allowed
           end
       end)%js
  end.

End Gate.

(** The [for (const key of membershipCache.keys())] loop: every key that
    ends with the suffix is deleted.  The outcome does not depend on the
    order in which the keys are visited. *)
Definition deleteEndingWith (suffix : string) (m : gmap string Decision.t)
  : gmap string Decision.t :=
  foldr (fun key acc => if JS.endsWith key suffix then delete key acc else acc)
        m (map_to_list m).*1.

Definition invalidateGroupMembershipCache (groupId : option string) : M unit :=
  (st <- get;;
   let cache :=
     match groupId with
     | Some g =>
         if JS.truthy g then deleteEndingWith ("|" +:+ g) (membershipCache st)
         else ∅
     | None => ∅
     end in
   put {| cachedGroups := cachedGroups st;
          cachedAt := 0;
          cacheAccountKey := cacheAccountKey st;
          membershipCache := cache |})%js.

Definition _resetCaches : M unit := put initial.

Definition _getMembershipCacheSize : M nat :=
  (st <- get;; ret (size (membershipCache st)))%js.

(** ** The earlier revision of the resolver

    groups.ts is followed by its earlier revision, which has the resolver
    only: the same three directory variables, no decision map, and the
    fetch written inline instead of through [getCachedGroups].  It runs
    here on the same state, the decision map being carried along. *)

Module Legacy.

Definition GROUP_CACHE_TTL_MS : Z := 5 * 60 * 1000.

Definition resolveSignalGroupId (groupId : string) (opts : Opts) : M string :=
  (let accountKey := buildAccountKey (baseUrl opts) (account opts) in
   now <- Date_now;;
   st <- get;;
   match (match cachedGroups st with
          | Some cached =>
              if (String.eqb (cacheAccountKey st) accountKey
                  && (now - cachedAt st <? GROUP_CACHE_TTL_MS))%bool
              then List.find (idIs groupId) cached
              else None
          | None => None
          end) with
   | Some exact => ret (id exact)
   | None =>
       groups <- listGroups opts;;
       st' <- get;;
       put (withSnapshot st' groups now accountKey);;
       match List.find (idIs groupId) groups with
       | Some exact => ret (id exact)
       | None =>
           let lowered := JS.toLowerCase groupId in
           let matches := List.filter (idIsLowered lowered) groups in
           match matches with
           | [m] => ret (id m)
           | [] => throw (Error (notFoundMessage groupId (length groups)))
           | _ => throw (Error (ambiguousMessage groupId (length matches)))
           end
       end
   end)%js.

End Legacy.

(** * Vocabulary of the specification *)

(** ** Group identifiers *)

Fixpoint hasChar (c : ascii) (s : string) : bool :=
  match s with
  | EmptyString => false
  | String x r => (Ascii.eqb x c || hasChar c r)%bool
  end.

(** Group identifiers are opaque base64 strings.  What the decision keys
    rely on is only that the key delimiter does not occur in them. *)
Definition delimiterFree (s : string) : Prop := hasChar "|" s = false.

Definition base64Char (c : ascii) : bool :=
  let n := nat_of_ascii c in
  (((65 <=? n) && (n <=? 90)) || ((97 <=? n) && (n <=? 122))
   || ((48 <=? n) && (n <=? 57)) || (n =? 43) || (n =? 47) || (n =? 61))%nat%bool.

Fixpoint allChars (p : ascii -> bool) (s : string) : bool :=
  match s with
  | EmptyString => true
  | String x r => (p x && allChars p r)%bool
  end.

(** ** Locating the target group *)

(** [x] is the first element of [l] that satisfies [P]. *)
Definition firstSuch {A : Type} (P : A -> Prop) (l : list A) (x : A) : Prop :=
  exists pre post, l = (pre ++ x :: post)%list /\ P x /\ forall y, y ∈ pre -> ~ P y.

(** The specification's rule: the first group whose id equals the query,
    else the first group whose lower-cased id equals the lower-cased query. *)
Definition locates (groupId : string) (groups : list SignalGroupEntry)
    (g : SignalGroupEntry) : Prop :=
  firstSuch (fun h => id h = groupId) groups g
  \/ ((forall h, h ∈ groups -> id h <> groupId)
      /\ firstSuch (fun h => JS.toLowerCase (id h) = JS.toLowerCase groupId) groups g).

(** ** Satisfying the requirement *)

(** The requirement list asks for phone number [p]. *)
Definition requiresPhone (parse : string -> option SignalAllowEntry)
    (required : list string) (p : string) : Prop :=
  exists s, s ∈ required /\ parse s = Some (AllowPhone p).

(** The requirement list asks for account identifier [u]. *)
Definition requiresUuid (parse : string -> option SignalAllowEntry)
    (required : list string) (u : string) : Prop :=
  exists s, s ∈ required /\ parse s = Some (AllowUuid u).

(** A member satisfies the requirement: it has a phone number whose
    normal form is asked for, or it has an account identifier that is
    asked for.  Having a value means holding a non-empty string, which is
    what the truthiness tests of the source check. *)
Definition memberSatisfies (parse : string -> option SignalAllowEntry)
    (normalize : string -> option string) (required : list string)
    (member : SignalGroupMember) : Prop :=
  (exists n p, number member = Some n /\ n <> "" /\
               normalize n = Some p /\ p <> "" /\ requiresPhone parse required p)
  \/ (exists u, uuid member = Some u /\ u <> "" /\ requiresUuid parse required u).

(** What the gate decides from the group list it obtained. *)
Definition gateDecision (parse : string -> option SignalAllowEntry)
    (normalize : string -> option string)
    (groupId : string) (requiredNumbers : list string)
    (groups : list SignalGroupEntry) : bool :=
  match findGroup groupId groups with
  | None => false
  | Some group =>
      let parsed := parseRequired parse requiredNumbers in
      if existsb isAny parsed then true
      else existsb (memberMatches normalize (requiredPhones parsed) (requiredUuids parsed))
                   (default [] (members group))
  end.

(** The state without the decision held under [cacheKey]. *)
Definition dropDecision (st : Caches) (cacheKey : string) : Caches :=
  {| cachedGroups := cachedGroups st;
     cachedAt := cachedAt st;
     cacheAccountKey := cacheAccountKey st;
     membershipCache := delete cacheKey (membershipCache st) |}.

(** ** Case-insensitive matches *)

(** The number of groups whose id equals the query case-insensitively. *)
Definition matchCount (groupId : string) (groups : list SignalGroupEntry) : nat :=
  length (List.filter (idIsLowered (JS.toLowerCase groupId)) groups).

(** [g] is the one group of the list whose id equals the query
    case-insensitively. *)
Definition uniqueMatch (groupId : string) (groups : list SignalGroupEntry)
    (g : SignalGroupEntry) : Prop :=
  exists pre post,
    groups = (pre ++ g :: post)%list
    /\ JS.toLowerCase (id g) = JS.toLowerCase groupId
    /\ forall h, h ∈ (pre ++ post)%list ->
                 JS.toLowerCase (id h) <> JS.toLowerCase groupId.

(** ** Concrete data for running the operations

    A small directory after the fixtures of groups.test.ts, and stand-ins
    for the two collaborators, whose sources (identity.ts, utils.ts) are
    not at hand: the empty entry does not parse, [*] is the wildcard, a
    [uuid:] prefix announces an account identifier, anything else is a
    phone number; a phone number in normal form starts with [+]. *)

Module Sample.

Definition parse (s : string) : option SignalAllowEntry :=
  if String.eqb s "" then None
  else if String.eqb s "*" then Some AllowAny
  else if String.prefix "uuid:" s
       then Some (AllowUuid (substring 5 (String.length s - 5) s))
       else Some (AllowPhone s).

Definition normalize (s : string) : option string :=
  if String.prefix "+" s then Some s else None.

Definition opts : Opts :=
  {| baseUrl := "http://localhost:8080";
     account := Some "+10000000000";
     timeoutMs := None |}.

Definition makeGroup (i : string) (ms : list SignalGroupMember) : SignalGroupEntry :=
  {| id := i; name := Some ("Group " +:+ i); isMember := Some true;
     isBlocked := Some false; members := Some ms |}.

Definition alice : SignalGroupMember :=
  {| number := Some "+15551111111"; uuid := Some "uuid-1" |}.

Definition bob : SignalGroupMember :=
  {| number := Some "+15552222222"; uuid := Some "uuid-2" |}.

Definition mixedCase : SignalGroupEntry := makeGroup "AbC123dEf=" [alice].

Definition directory : list SignalGroupEntry :=
  [mixedCase; makeGroup "def456" [bob]].

(** A daemon that answers every request with the same group list. *)
Definition serving (groups : list SignalGroupEntry) (now : Z) : Env :=
  {| clock := now; daemon := fun _ => Resolved (Groups groups) |}.

(** A daemon whose transport fails. *)
Definition failing (reason : string) (now : Z) : Env :=
  {| clock := now; daemon := fun _ => Rejected reason |}.

Definition t0 : Z := 1700000000000.

End Sample.

(** * Properties *)

(** ** Strings *)

Section StringFacts.

Lemma app_cons (x : ascii) (a b : string) : String x a +:+ b = String x (a +:+ b).
Proof. reflexivity. Qed.

Lemma app_empty_l (b : string) : "" +:+ b = b.
Proof. reflexivity. Qed.

Lemma length_app (a b : string) :
  String.length (a +:+ b) = (String.length a + String.length b)%nat.
Proof.
  induction a as [|c a IH]; [reflexivity |].
  rewrite app_cons. simpl. now rewrite IH.
Qed.

Lemma app_assoc_s (a b c : string) : (a +:+ b) +:+ c = a +:+ (b +:+ c).
Proof.
  induction a as [|x a IH]; [reflexivity |].
  rewrite !app_cons. now rewrite IH.
Qed.

Lemma substring_all (s : string) : substring 0 (String.length s) s = s.
Proof. induction s as [|c s IH]; simpl; [reflexivity | now rewrite IH]. Qed.

Lemma substring_skip (p x : string) :
  substring (String.length p) (String.length x) (p +:+ x) = x.
Proof.
  induction p as [|c p IH]; [apply substring_all |].
  rewrite app_cons. exact IH.
Qed.

Lemma substring_split (s : string) (n : nat) :
  (n <= String.length s)%nat ->
  s = substring 0 n s +:+ substring n (String.length s - n) s.
Proof.
  revert n. induction s as [|c s IH]; intros [|n] Hn; simpl in *.
  - reflexivity.
  - lia.
  - now rewrite substring_all.
  - rewrite app_cons. f_equal. apply IH. lia.
Qed.

Lemma endsWith_iff (s x : string) :
  JS.endsWith s x = true <-> exists p, s = p +:+ x.
Proof.
  unfold JS.endsWith. rewrite andb_true_iff, Nat.leb_le, String.eqb_eq. split.
  - intros [Hle Hsub].
    exists (substring 0 (String.length s - String.length x) s).
    pose proof (substring_split s (String.length s - String.length x)) as Hsplit.
    replace (String.length s - (String.length s - String.length x))%nat
      with (String.length x) in Hsplit by lia.
    rewrite Hsub in Hsplit. apply Hsplit. lia.
  - intros [p ->]. rewrite length_app. split; [lia |].
    replace (String.length p + String.length x - String.length x)%nat
      with (String.length p) by lia.
    apply substring_skip.
Qed.

Lemma endsWith_app (p x : string) : JS.endsWith (p +:+ x) x = true.
Proof. apply endsWith_iff. now exists p. Qed.

(** Two splittings of one string with right parts of the same length agree. *)
Lemma app_eq_same_length (a b c d : string) :
  a +:+ b = c +:+ d -> String.length b = String.length d -> b = d.
Proof.
  revert c. induction a as [|x a IH]; intros [|y c] Heq Hlen;
    rewrite ?app_cons, ?app_empty_l in Heq.
  - exact Heq.
  - subst b. simpl in Hlen. rewrite length_app in Hlen. lia.
  - subst d. simpl in Hlen. rewrite length_app in Hlen. lia.
  - injection Heq as _ Heq. eauto.
Qed.

Lemma length_map_chars (f : ascii -> ascii) (s : string) :
  String.length (JS.map_chars f s) = String.length s.
Proof. induction s as [|c s IH]; simpl; [reflexivity | now rewrite IH]. Qed.

Lemma toLowerCase_length (s : string) :
  String.length (JS.toLowerCase s) = String.length s.
Proof. apply length_map_chars. Qed.

Lemma truthy_true (s : string) : JS.truthy s = true <-> s <> "".
Proof.
  unfold JS.truthy. rewrite negb_true_iff. apply String.eqb_neq.
Qed.

End StringFacts.

(** ** Cache keys *)

Section KeyFacts.

Lemma base64_delimiterFree (s : string) :
  allChars base64Char s = true -> delimiterFree s.
Proof.
  unfold delimiterFree. induction s as [|x s IH]; simpl; [reflexivity |].
  rewrite andb_true_iff. intros [Hx Hs]. rewrite (IH Hs), orb_false_r.
  destruct (Ascii.eqb_spec x "|") as [-> |]; [discriminate Hx | reflexivity].
Qed.

Lemma hasChar_app (c : ascii) (a b : string) :
  hasChar c (a +:+ b) = (hasChar c a || hasChar c b)%bool.
Proof.
  induction a as [|x a IH]; [reflexivity |].
  rewrite app_cons. simpl. now rewrite IH, orb_assoc.
Qed.

Lemma delimiter_in_key (a b : string) : ~ delimiterFree (a +:+ "|" +:+ b).
Proof.
  unfold delimiterFree. rewrite hasChar_app. simpl.
  rewrite orb_true_r. discriminate.
Qed.

(** The part of a key after its last delimiter is determined by the key. *)
Lemma key_tail_unique (a b c d : string) :
  delimiterFree b -> delimiterFree d ->
  a +:+ "|" +:+ b = c +:+ "|" +:+ d -> b = d.
Proof.
  intros Hb Hd. revert c.
  induction a as [|x a IH]; intros [|y c] Heq;
    rewrite ?app_cons, ?app_empty_l in Heq.
  - now injection Heq.
  - injection Heq as _ ->. now apply delimiter_in_key in Hb.
  - injection Heq as _ <-. now apply delimiter_in_key in Hd.
  - injection Heq as _ Htl. eauto.
Qed.

Lemma decisionKey_tail_delimiterFree (o : Opts) (g g' : string) :
  delimiterFree g -> delimiterFree g' -> g' <> g ->
  JS.endsWith (decisionKey o g') ("|" +:+ g) = false.
Proof.
  intros Hg Hg' Hne. apply not_true_is_false. intros Hends.
  apply endsWith_iff in Hends as [p Hp]. unfold decisionKey in Hp.
  apply key_tail_unique in Hp; auto.
Qed.

Lemma decisionKey_tail_same_length (o : Opts) (g g' : string) :
  String.length g' = String.length g -> g' <> g ->
  JS.endsWith (decisionKey o g') ("|" +:+ g) = false.
Proof.
  intros Hlen Hne. apply not_true_is_false. intros Hends.
  apply endsWith_iff in Hends as [p Hp]. unfold decisionKey in Hp.
  apply app_eq_same_length in Hp.
  - now injection Hp.
  - rewrite !length_app. now rewrite Hlen.
Qed.

Lemma decisionKey_endsWith (o : Opts) (g : string) :
  JS.endsWith (decisionKey o g) ("|" +:+ g) = true.
Proof. apply endsWith_app. Qed.

End KeyFacts.

(** ** The decision map *)

Section MapFacts.

Implicit Types (m : gmap string Decision.t) (k suffix : string).

Lemma foldr_delete_lookup suffix m (l : list string) k :
  foldr (fun key acc => if JS.endsWith key suffix then delete key acc else acc) m l !! k
  = if (JS.endsWith k suffix && bool_decide (k ∈ l))%bool then None else m !! k.
Proof.
  induction l as [|a l IH]; simpl.
  - now rewrite andb_false_r.
  - destruct (JS.endsWith a suffix) eqn:Ha.
    + rewrite lookup_delete. destruct (decide (a = k)) as [-> | Hne].
      * rewrite Ha. simpl. rewrite bool_decide_eq_true_2; [reflexivity | left].
      * rewrite IH. destruct (JS.endsWith k suffix); simpl; [| reflexivity].
        destruct (bool_decide (k ∈ l)) eqn:Hl.
        -- apply bool_decide_eq_true in Hl.
           rewrite bool_decide_eq_true_2; [reflexivity | now right].
        -- apply bool_decide_eq_false in Hl.
           rewrite bool_decide_eq_false_2; [reflexivity |].
           intros Hin. apply elem_of_cons in Hin as [-> | Hin]; tauto.
    + rewrite IH. destruct (JS.endsWith k suffix) eqn:Hk; simpl; [| reflexivity].
      destruct (bool_decide (k ∈ l)) eqn:Hl.
      * apply bool_decide_eq_true in Hl.
        rewrite bool_decide_eq_true_2; [reflexivity | now right].
      * apply bool_decide_eq_false in Hl.
        rewrite bool_decide_eq_false_2; [reflexivity |].
        intros Hin. apply elem_of_cons in Hin as [-> | Hin]; [congruence | tauto].
Qed.

(** After the loop a key is bound exactly when it was bound before and
    does not end with the suffix. *)
Lemma deleteEndingWith_lookup suffix m k :
  deleteEndingWith suffix m !! k
  = if JS.endsWith k suffix then None else m !! k.
Proof.
  unfold deleteEndingWith. rewrite foldr_delete_lookup.
  destruct (JS.endsWith k suffix); simpl; [| reflexivity].
  destruct (bool_decide (k ∈ (map_to_list m).*1)) eqn:Hl; [reflexivity |].
  apply bool_decide_eq_false in Hl.
  destruct (m !! k) as [d|] eqn:Hk; [| reflexivity].
  exfalso. apply Hl. apply list_elem_of_fmap.
  exists (k, d). split; [reflexivity |]. now apply elem_of_map_to_list.
Qed.

End MapFacts.

(** ** Running the operations *)

Ltac unfold_monad :=
  unfold bind, ret, throw, get, put, Date_now, signalRpcRequest; cbn.

Section RunFacts.

Variable parse : string -> option SignalAllowEntry.
Variable normalize : string -> option string.

Lemma getCachedGroups_run (opts : Opts) (forceFresh : bool) (env : Env) (st : Caches) :
  let accountKey := buildAccountKey (baseUrl opts) (account opts) in
  getCachedGroups opts forceFresh env st =
  match (if forceFresh then None else snapshotFresh st accountKey (clock env)) with
  | Some groups => {| outcome := Returned groups; caches := st; rpcs := [] |}
  | None =>
      match daemon env (listGroupsCall opts) with
      | Resolved v =>
          {| outcome := Returned (arrayOrEmpty v);
             caches := withSnapshot st (arrayOrEmpty v) (clock env) accountKey;
             rpcs := [listGroupsCall opts] |}
      | Rejected reason =>
          {| outcome := Thrown (TransportFailure reason);
             caches := st;
             rpcs := [listGroupsCall opts] |}
      end
  end.
Proof.
  unfold getCachedGroups, listGroups. unfold_monad.
  destruct (if forceFresh then None else snapshotFresh st _ (clock env)); cbn;
    [reflexivity |].
  destruct (daemon env (listGroupsCall opts)); reflexivity.
Qed.

Lemma checkGroup_run (groupId : string) (requiredNumbers : list string)
    (opts : Opts) (env : Env) (st : Caches) :
  requiredNumbers <> [] ->
  checkGroupHasRequiredMember parse normalize groupId requiredNumbers opts env st =
  match decisionFresh st (decisionKey opts groupId) (clock env) with
  | Some allowed => {| outcome := Returned allowed; caches := st; rpcs := [] |}
  | None =>
      let r := getCachedGroups opts false env st in
      match outcome r with
      | Returned groups =>
          let allowed := gateDecision parse normalize groupId requiredNumbers groups in
          {| outcome := Returned allowed;
             caches := withDecision (caches r) (decisionKey opts groupId) allowed (clock env);
             rpcs := rpcs r |}
      | Thrown e => {| outcome := Thrown e; caches := caches r; rpcs := rpcs r |}
      end
  end.
Proof.
  intros Hne. destruct requiredNumbers as [|x xs]; [congruence |].
  unfold checkGroupHasRequiredMember, gateDecision, setDecision.
  cbv beta iota. clear Hne. generalize (x :: xs). intros required.
  remember (getCachedGroups opts false) as fetch eqn:Hfetch.
  remember (parseRequired parse required) as parsed eqn:Hparsed.
  unfold_monad.
  destruct (decisionFresh st _ (clock env)); [reflexivity |].
  destruct (outcome (fetch env st)) as [groups | e]; [| reflexivity].
  destruct (findGroup groupId groups) as [group |]; cbn.
  - destruct (existsb isAny parsed); cbn; now rewrite app_nil_r.
  - now rewrite app_nil_r.
Qed.

Lemma checkGroup_empty (groupId : string) (opts : Opts) (env : Env) (st : Caches) :
  checkGroupHasRequiredMember parse normalize groupId [] opts env st =
  {| outcome := Returned true; caches := st; rpcs := [] |}.
Proof. reflexivity. Qed.

End RunFacts.

Lemma resolve_run (groupId : string) (opts : Opts) (env : Env) (st : Caches) :
  let accountKey := buildAccountKey (baseUrl opts) (account opts) in
  resolveSignalGroupId groupId opts env st =
  match exactInFreshSnapshot st accountKey (clock env) groupId with
  | Some exact => {| outcome := Returned (id exact); caches := st; rpcs := [] |}
  | None =>
      let r := getCachedGroups opts true env st in
      match outcome r with
      | Returned groups =>
          {| outcome :=
               match List.find (idIs groupId) groups with
               | Some exact => Returned (id exact)
               | None =>
                   match List.filter (idIsLowered (JS.toLowerCase groupId)) groups with
                   | [] => Thrown (Error (notFoundMessage groupId (length groups)))
                   | [m] => Returned (id m)
                   | matches => Thrown (Error (ambiguousMessage groupId (length matches)))
                   end
               end;
             caches := caches r;
             rpcs := rpcs r |}
      | Thrown e => {| outcome := Thrown e; caches := caches r; rpcs := rpcs r |}
      end
  end.
Proof.
  unfold resolveSignalGroupId.
  remember (getCachedGroups opts true) as fetch eqn:Hfetch.
  unfold_monad.
  destruct (exactInFreshSnapshot st _ (clock env) groupId); [reflexivity |].
  destruct (outcome (fetch env st)) as [groups | e]; [| reflexivity].
  destruct (List.find (idIs groupId) groups); cbn.
  - now rewrite app_nil_r.
  - destruct (List.filter _ groups) as [|m [|m' ms]];
      cbn; now rewrite app_nil_r.
Qed.

(** ** Locating the target group *)

Section Locate.

Context {A : Type} (p : A -> bool) (P : A -> Prop).
Hypothesis p_spec : forall x, p x = true <-> P x.

Lemma find_firstSuch (l : list A) (x : A) :
  List.find p l = Some x <-> firstSuch P l x.
Proof.
  split.
  - induction l as [|a l IH]; simpl; [discriminate |].
    destruct (p a) eqn:Ha.
    + intros [= ->]. exists [], l. repeat split; [now apply p_spec |].
      intros y Hy. inversion Hy.
    + intros Hfind. destruct (IH Hfind) as (pre & post & -> & HP & Hpre).
      exists (a :: pre), post. repeat split; [exact HP |].
      intros y Hy. apply elem_of_cons in Hy as [-> | Hy]; [| now apply Hpre].
      rewrite <- p_spec. congruence.
  - intros (pre & post & -> & HP & Hpre).
    induction pre as [|a pre IH]; simpl.
    + apply p_spec in HP. now rewrite HP.
    + destruct (p a) eqn:Ha.
      * exfalso. apply (Hpre a); [left | now apply p_spec].
      * apply IH. intros y Hy. apply Hpre. now right.
Qed.

Lemma find_none_iff (l : list A) :
  List.find p l = None <-> forall x, x ∈ l -> ~ P x.
Proof.
  split.
  - intros Hnone x Hx HP. apply list_elem_of_In in Hx.
    apply p_spec in HP. pose proof (find_none p l Hnone x Hx). congruence.
  - intros Hall. destruct (List.find p l) as [x|] eqn:Hfind; [| reflexivity].
    apply find_some in Hfind as [Hin Hp]. exfalso.
    apply (Hall x); [now apply list_elem_of_In | now apply p_spec].
Qed.

End Locate.

Section LocateGroup.

Lemma idIs_spec (groupId : string) (g : SignalGroupEntry) :
  idIs groupId g = true <-> id g = groupId.
Proof. apply String.eqb_eq. Qed.

Lemma idIsLowered_spec (groupId : string) (g : SignalGroupEntry) :
  idIsLowered (JS.toLowerCase groupId) g = true
  <-> JS.toLowerCase (id g) = JS.toLowerCase groupId.
Proof. apply String.eqb_eq. Qed.

Lemma findGroup_locates (groupId : string) (groups : list SignalGroupEntry)
    (g : SignalGroupEntry) :
  findGroup groupId groups = Some g <-> locates groupId groups g.
Proof.
  unfold findGroup, locates.
  rewrite <- (find_firstSuch _ _ (idIs_spec groupId)).
  rewrite <- (find_firstSuch _ _ (idIsLowered_spec groupId)).
  rewrite <- (find_none_iff _ _ (idIs_spec groupId)).
  destruct (List.find (idIs groupId) groups) as [e|]; split.
  - now left.
  - intros [H | [H _]]; [exact H | discriminate H].
  - intros H. right. now split.
  - intros [H | [_ H]]; [discriminate H | exact H].
Qed.

Lemma findGroup_none (groupId : string) (groups : list SignalGroupEntry) :
  (forall g, g ∈ groups ->
     id g <> groupId /\ JS.toLowerCase (id g) <> JS.toLowerCase groupId) ->
  findGroup groupId groups = None.
Proof.
  intros Hno. unfold findGroup.
  replace (List.find (idIs groupId) groups) with (@None SignalGroupEntry).
  - apply (find_none_iff _ _ (idIsLowered_spec groupId)). intros g Hg.
    now apply Hno.
  - symmetry. apply (find_none_iff _ _ (idIs_spec groupId)). intros g Hg.
    now apply Hno.
Qed.

End LocateGroup.

(** ** The membership gate *)

Section GateFacts.

Variable parse : string -> option SignalAllowEntry.
Variable normalize : string -> option string.

Lemma elem_requiredPhones (required : list string) (p : string) :
  p ∈ requiredPhones (parseRequired parse required) <-> requiresPhone parse required p.
Proof.
  unfold requiredPhones, parseRequired, requiresPhone.
  rewrite elem_of_list_to_set, list_elem_of_omap. split.
  - intros (e & He & Hp). apply list_elem_of_omap in He as (s & Hs & Hparse).
    destruct e; try discriminate. injection Hp as ->. eauto.
  - intros (s & Hs & Hparse). exists (AllowPhone p). split; [| reflexivity].
    apply list_elem_of_omap. eauto.
Qed.

Lemma elem_requiredUuids (required : list string) (u : string) :
  u ∈ requiredUuids (parseRequired parse required) <-> requiresUuid parse required u.
Proof.
  unfold requiredUuids, parseRequired, requiresUuid.
  rewrite elem_of_list_to_set, list_elem_of_omap. split.
  - intros (e & He & Hu). apply list_elem_of_omap in He as (s & Hs & Hparse).
    destruct e; try discriminate. injection Hu as ->. eauto.
  - intros (s & Hs & Hparse). exists (AllowUuid u). split; [| reflexivity].
    apply list_elem_of_omap. eauto.
Qed.

Lemma or_iff_cases (A B C D : Prop) : (A <-> C) -> (B <-> D) -> (A \/ B <-> C \/ D).
Proof. tauto. Qed.

Lemma memberMatches_iff (required : list string) (member : SignalGroupMember) :
  memberMatches normalize (requiredPhones (parseRequired parse required))
                (requiredUuids (parseRequired parse required)) member = true
  <-> memberSatisfies parse normalize required member.
Proof.
  unfold memberMatches, memberSatisfies. rewrite orb_true_iff.
  apply or_iff_cases; split.
  - destruct (number member) as [n|]; [| discriminate].
    rewrite andb_true_iff, truthy_true. intros [Hn Hnorm].
    destruct (normalize n) as [p|] eqn:Hp; [| discriminate].
    rewrite andb_true_iff, truthy_true, bool_decide_eq_true in Hnorm.
    destruct Hnorm as [Hp' Hin]. apply elem_requiredPhones in Hin.
    exists n, p. auto.
  - intros (n & p & -> & Hn & -> & Hp & Hreq).
    rewrite !andb_true_iff, !truthy_true, bool_decide_eq_true.
    repeat split; auto. now apply elem_requiredPhones.
  - destruct (uuid member) as [u|]; [| discriminate].
    rewrite andb_true_iff, truthy_true, bool_decide_eq_true.
    intros [Hu Hin]. apply elem_requiredUuids in Hin. exists u. auto.
  - intros (u & -> & Hu & Hreq).
    rewrite andb_true_iff, truthy_true, bool_decide_eq_true.
    split; auto. now apply elem_requiredUuids.
Qed.

Lemma isAny_iff (e : SignalAllowEntry) : isAny e = true <-> e = AllowAny.
Proof.
  destruct e; split; intros H; try reflexivity; try discriminate H;
    vm_compute in H; discriminate H.
Qed.

Lemma wildcard_parsed (required : list string) :
  existsb isAny (parseRequired parse required) = true
  <-> exists s, s ∈ required /\ parse s = Some AllowAny.
Proof.
  rewrite existsb_exists. unfold parseRequired. split.
  - intros (e & He & Hany). apply isAny_iff in Hany as ->.
    apply list_elem_of_In, list_elem_of_omap in He. exact He.
  - intros Hs. exists AllowAny. split; [| reflexivity].
    now apply list_elem_of_In, list_elem_of_omap.
Qed.

Lemma unparsable_parsed (required : list string) :
  (forall s, s ∈ required -> parse s = None) -> parseRequired parse required = [].
Proof.
  unfold parseRequired. induction required as [|s l IH]; intros Hall; cbn.
  - reflexivity.
  - rewrite (Hall s) by left. apply IH. intros s' Hs'. apply Hall. now right.
Qed.

(** The gate's run when its own cache has no fresh decision and the
    group list is obtained. *)
Lemma checkGroup_decides (groupId : string) (required : list string) (opts : Opts)
    (env : Env) (st : Caches) (groups : list SignalGroupEntry) :
  required <> [] ->
  decisionFresh st (decisionKey opts groupId) (clock env) = None ->
  outcome (getCachedGroups opts false env st) = Returned groups ->
  let r := checkGroupHasRequiredMember parse normalize groupId required opts env st in
  let allowed := gateDecision parse normalize groupId required groups in
  outcome r = Returned allowed
  /\ membershipCache (caches r) !! decisionKey opts groupId
     = Some (Decision.mk allowed (clock env))
  /\ rpcs r = rpcs (getCachedGroups opts false env st).
Proof.
  intros Hne Hmiss Hfetch. cbv zeta.
  rewrite checkGroup_run by exact Hne. rewrite Hmiss. cbv zeta. rewrite Hfetch.
  cbn. repeat split. apply lookup_insert_eq.
Qed.

End GateFacts.

(** ** The claims about the gate *)

(** C6: with an empty requirement list the gate returns true at once: no
    RPC request is issued and neither cache is touched. *)
Theorem gate_empty_requirement
    (parse : string -> option SignalAllowEntry) (normalize : string -> option string)
    (groupId : string) (opts : Opts) (env : Env) (st : Caches) :
  let r := checkGroupHasRequiredMember parse normalize groupId [] opts env st in
  outcome r = Returned true /\ rpcs r = [] /\ caches r = st.
Proof. cbv zeta. rewrite checkGroup_empty. now cbn. Qed.

(** C1: when the gate reads a group list in which the target group is
    located and the non-empty requirement list holds no wildcard, the
    gate returns true exactly when some member of that group satisfies
    the requirement (it has a phone number normalizing to a required
    phone, or a uuid equal to a required uuid, a field holding the empty
    string counting as absent), and the boolean is stored in the decision
    cache under the call's key. *)
Theorem gate_true_iff_member_satisfies
    (parse : string -> option SignalAllowEntry) (normalize : string -> option string)
    (groupId : string) (required : list string) (opts : Opts)
    (env : Env) (st : Caches)
    (groups : list SignalGroupEntry) (group : SignalGroupEntry)
    (Hrequired : required <> [])
    (Hmiss : decisionFresh st (decisionKey opts groupId) (clock env) = None)
    (Hgroups : outcome (getCachedGroups opts false env st) = Returned groups)
    (Hlocated : locates groupId groups group)
    (Hnowild : forall s, s ∈ required -> parse s <> Some AllowAny) :
  let r := checkGroupHasRequiredMember parse normalize groupId required opts env st in
  exists allowed : bool,
    outcome r = Returned allowed
    /\ membershipCache (caches r) !! decisionKey opts groupId
       = Some (Decision.mk allowed (clock env))
    /\ (allowed = true <->
        exists member, member ∈ default [] (members group)
                       /\ memberSatisfies parse normalize required member).
Proof.
  cbv zeta.
  destruct (checkGroup_decides parse normalize groupId required opts env st groups
              Hrequired Hmiss Hgroups) as (Hout & Hcache & _).
  eexists. split; [exact Hout |]. split; [exact Hcache |].
  unfold gateDecision. apply findGroup_locates in Hlocated. rewrite Hlocated.
  destruct (existsb isAny (parseRequired parse required)) eqn:Hany.
  - apply wildcard_parsed in Hany as (s & Hs & Hparse).
    now destruct (Hnowild s Hs).
  - rewrite existsb_exists. split.
    + intros (member & Hin & Hm). exists member. split.
      * now apply list_elem_of_In.
      * now apply memberMatches_iff.
    + intros (member & Hin & Hm). exists member. split.
      * now apply list_elem_of_In.
      * now apply memberMatches_iff.
Qed.

Lemma gate_true_iff_member_satisfies_witness :
  let r := checkGroupHasRequiredMember Sample.parse Sample.normalize
             "abc123def=" ["+15551111111"] Sample.opts
             (Sample.serving Sample.directory Sample.t0) initial in
  exists allowed : bool,
    outcome r = Returned allowed
    /\ membershipCache (caches r) !! decisionKey Sample.opts "abc123def="
       = Some (Decision.mk allowed Sample.t0)
    /\ (allowed = true <->
        exists member, member ∈ default [] (members Sample.mixedCase)
                       /\ memberSatisfies Sample.parse Sample.normalize
                            ["+15551111111"] member).
Proof.
  apply (gate_true_iff_member_satisfies Sample.parse Sample.normalize
           "abc123def=" ["+15551111111"] Sample.opts
           (Sample.serving Sample.directory Sample.t0) initial
           Sample.directory Sample.mixedCase).
  - discriminate.
  - reflexivity.
  - reflexivity.
  - apply findGroup_locates. reflexivity.
  - intros s Hs. apply list_elem_of_singleton in Hs. subst s. discriminate.
Defined.

(** C7: when no group of the list the gate reads matches the queried id,
    exactly or case-insensitively, the gate returns false and stores that
    false decision; and whenever the gate throws, what it throws is the
    rejection of its [listGroups] request, passed on unchanged. *)
Theorem gate_not_found_is_false_and_only_transport_throws
    (parse : string -> option SignalAllowEntry) (normalize : string -> option string) :
  (forall (groupId : string) (required : list string) (opts : Opts)
          (env : Env) (st : Caches) (groups : list SignalGroupEntry),
      required <> [] ->
      decisionFresh st (decisionKey opts groupId) (clock env) = None ->
      outcome (getCachedGroups opts false env st) = Returned groups ->
      (forall g, g ∈ groups ->
         id g <> groupId /\ JS.toLowerCase (id g) <> JS.toLowerCase groupId) ->
      let r := checkGroupHasRequiredMember parse normalize groupId required opts env st in
      outcome r = Returned false
      /\ membershipCache (caches r) !! decisionKey opts groupId
         = Some (Decision.mk false (clock env)))
  /\
  (forall (groupId : string) (required : list string) (opts : Opts)
          (env : Env) (st : Caches) (e : Exn),
      let r := checkGroupHasRequiredMember parse normalize groupId required opts env st in
      outcome r = Thrown e ->
      exists reason,
        e = TransportFailure reason
        /\ daemon env (listGroupsCall opts) = Rejected reason
        /\ rpcs r = [listGroupsCall opts]
        /\ caches r = st).
Proof.
  split.
  - intros groupId required opts env st groups Hrequired Hmiss Hgroups Hnomatch.
    destruct (checkGroup_decides parse normalize groupId required opts env st groups
                Hrequired Hmiss Hgroups) as (Hout & Hcache & _).
    unfold gateDecision in Hout, Hcache.
    rewrite (findGroup_none groupId groups Hnomatch) in Hout, Hcache.
    now split.
  - intros groupId required opts env st e. cbv zeta.
    destruct required as [|x xs]; [rewrite checkGroup_empty; discriminate |].
    rewrite checkGroup_run by discriminate.
    destruct (decisionFresh st _ (clock env)); [discriminate |].
    cbv zeta. rewrite getCachedGroups_run. cbv zeta.
    destruct (snapshotFresh st _ (clock env)); [discriminate |].
    destruct (daemon env (listGroupsCall opts)) as [v | reason]; [discriminate |].
    cbn. intros [= <-]. now exists reason.
Qed.

Lemma gate_not_found_is_false_and_only_transport_throws_witness :
  (let r := checkGroupHasRequiredMember Sample.parse Sample.normalize
              "nonexistent" ["+15551111111"] Sample.opts
              (Sample.serving Sample.directory Sample.t0) initial in
   outcome r = Returned false
   /\ membershipCache (caches r) !! decisionKey Sample.opts "nonexistent"
      = Some (Decision.mk false Sample.t0))
  /\
  (exists reason,
      TransportFailure "timeout" = TransportFailure reason
      /\ daemon (Sample.failing "timeout" Sample.t0) (listGroupsCall Sample.opts)
         = Rejected reason
      /\ rpcs (checkGroupHasRequiredMember Sample.parse Sample.normalize
                 "abc123" ["+15551111111"] Sample.opts
                 (Sample.failing "timeout" Sample.t0) initial)
         = [listGroupsCall Sample.opts]
      /\ caches (checkGroupHasRequiredMember Sample.parse Sample.normalize
                   "abc123" ["+15551111111"] Sample.opts
                   (Sample.failing "timeout" Sample.t0) initial)
         = initial).
Proof.
  destruct (gate_not_found_is_false_and_only_transport_throws
              Sample.parse Sample.normalize) as [Hfalse Hthrow].
  split.
  - apply (Hfalse "nonexistent" ["+15551111111"] Sample.opts
             (Sample.serving Sample.directory Sample.t0) initial Sample.directory).
    + discriminate.
    + reflexivity.
    + reflexivity.
    + intros g Hg. unfold Sample.directory in Hg.
      apply elem_of_cons in Hg as [-> | Hg];
        [| apply list_elem_of_singleton in Hg; subst g];
        split; discriminate.
  - apply (Hthrow "abc123" ["+15551111111"] Sample.opts
             (Sample.failing "timeout" Sample.t0) initial).
    reflexivity.
Defined.

(** C8: when the target group is located and some required entry parses
    to the wildcard, the gate returns true whatever the group's member
    list is (empty and absent lists included), and true is stored in the
    decision cache. *)
Theorem gate_wildcard_always_allowed
    (parse : string -> option SignalAllowEntry) (normalize : string -> option string)
    (groupId : string) (required : list string) (opts : Opts)
    (env : Env) (st : Caches)
    (groups : list SignalGroupEntry) (group : SignalGroupEntry) (entry : string)
    (Hentry : entry ∈ required)
    (Hwild : parse entry = Some AllowAny)
    (Hmiss : decisionFresh st (decisionKey opts groupId) (clock env) = None)
    (Hgroups : outcome (getCachedGroups opts false env st) = Returned groups)
    (Hlocated : locates groupId groups group) :
  let r := checkGroupHasRequiredMember parse normalize groupId required opts env st in
  outcome r = Returned true
  /\ membershipCache (caches r) !! decisionKey opts groupId
     = Some (Decision.mk true (clock env)).
Proof.
  assert (Hrequired : required <> []).
  { intros ->. inversion Hentry. }
  destruct (checkGroup_decides parse normalize groupId required opts env st groups
              Hrequired Hmiss Hgroups) as (Hout & Hcache & _).
  unfold gateDecision in Hout, Hcache.
  apply findGroup_locates in Hlocated. rewrite Hlocated in Hout, Hcache.
  replace (existsb isAny (parseRequired parse required)) with true in Hout, Hcache.
  - now split.
  - symmetry. apply wildcard_parsed. eauto.
Qed.

Lemma gate_wildcard_always_allowed_witness :
  let memberless :=
    {| id := "abc123"; name := Some "Empty Group"; isMember := Some true;
       isBlocked := None; members := None |} in
  let r := checkGroupHasRequiredMember Sample.parse Sample.normalize
             "abc123" ["*"] Sample.opts
             (Sample.serving [memberless] Sample.t0) initial in
  outcome r = Returned true
  /\ membershipCache (caches r) !! decisionKey Sample.opts "abc123"
     = Some (Decision.mk true Sample.t0).
Proof.
  intros memberless.
  apply (gate_wildcard_always_allowed Sample.parse Sample.normalize
           "abc123" ["*"] Sample.opts
           (Sample.serving [memberless] Sample.t0) initial
           [memberless] memberless "*").
  - left.
  - reflexivity.
  - reflexivity.
  - reflexivity.
  - apply findGroup_locates. reflexivity.
Defined.

(** C10: when the requirement list is non-empty but none of its entries
    parses, and the target group is located, the gate returns false and
    stores false: dropping the unparsable entries does not turn the
    requirement into the empty one, which would be satisfied. *)
Theorem gate_unparsable_requirement_is_false
    (parse : string -> option SignalAllowEntry) (normalize : string -> option string)
    (groupId : string) (required : list string) (opts : Opts)
    (env : Env) (st : Caches)
    (groups : list SignalGroupEntry) (group : SignalGroupEntry)
    (Hrequired : required <> [])
    (Hunparsable : forall s, s ∈ required -> parse s = None)
    (Hmiss : decisionFresh st (decisionKey opts groupId) (clock env) = None)
    (Hgroups : outcome (getCachedGroups opts false env st) = Returned groups)
    (Hlocated : locates groupId groups group) :
  let r := checkGroupHasRequiredMember parse normalize groupId required opts env st in
  outcome r = Returned false
  /\ membershipCache (caches r) !! decisionKey opts groupId
     = Some (Decision.mk false (clock env)).
Proof.
  destruct (checkGroup_decides parse normalize groupId required opts env st groups
              Hrequired Hmiss Hgroups) as (Hout & Hcache & _).
  unfold gateDecision in Hout, Hcache.
  apply findGroup_locates in Hlocated. rewrite Hlocated in Hout, Hcache.
  rewrite (unparsable_parsed parse required Hunparsable) in Hout, Hcache.
  cbn in Hout, Hcache.
  replace (existsb _ (default [] (members group))) with false in Hout, Hcache.
  - now split.
  - symmetry. apply not_true_is_false. intros Hex.
    apply existsb_exists in Hex as (member & _ & Hm).
    unfold memberMatches in Hm.
    destruct (number member) as [n|], (uuid member) as [u|]; cbn in Hm;
      repeat match type of Hm with
             | context [normalize ?n] => destruct (normalize n)
             | context [JS.truthy ?s] => destruct (JS.truthy s)
             end; cbn in Hm; discriminate Hm.
Qed.

Lemma gate_unparsable_requirement_is_false_witness :
  let r := checkGroupHasRequiredMember Sample.parse Sample.normalize
             "abc123def=" [""; ""] Sample.opts
             (Sample.serving Sample.directory Sample.t0) initial in
  outcome r = Returned false
  /\ membershipCache (caches r) !! decisionKey Sample.opts "abc123def="
     = Some (Decision.mk false Sample.t0).
Proof.
  apply (gate_unparsable_requirement_is_false Sample.parse Sample.normalize
           "abc123def=" [""; ""] Sample.opts
           (Sample.serving Sample.directory Sample.t0) initial
           Sample.directory Sample.mixedCase).
  - discriminate.
  - intros s Hs. apply elem_of_cons in Hs as [-> | Hs];
      [| apply list_elem_of_singleton in Hs; subst s]; reflexivity.
  - reflexivity.
  - reflexivity.
  - apply findGroup_locates. reflexivity.
Defined.

(** ** Serving decisions from the cache *)

Section DecisionCache.

Variable parse : string -> option SignalAllowEntry.
Variable normalize : string -> option string.

(** A fresh decision answers the call: no RPC, no write. *)
Lemma checkGroup_hit (groupId : string) (required : list string) (opts : Opts)
    (env : Env) (st : Caches) (allowed : bool) :
  required <> [] ->
  decisionFresh st (decisionKey opts groupId) (clock env) = Some allowed ->
  checkGroupHasRequiredMember parse normalize groupId required opts env st
  = {| outcome := Returned allowed; caches := st; rpcs := [] |}.
Proof. intros Hne Hhit. rewrite checkGroup_run by exact Hne. now rewrite Hhit. Qed.

Lemma decisionFresh_stored (st : Caches) (key : string) (allowed : bool) (at_ now : Z) :
  membershipCache st !! key = Some (Decision.mk allowed at_) ->
  now - at_ < MEMBERSHIP_CACHE_TTL_MS ->
  decisionFresh st key now = Some allowed.
Proof.
  intros Hlook Hsoon. unfold decisionFresh. rewrite Hlook. cbn.
  destruct (Z.ltb_spec (now - at_) MEMBERSHIP_CACHE_TTL_MS); [reflexivity | lia].
Qed.

Lemma getCachedGroups_rpc_count (opts : Opts) (env : Env) (st : Caches) :
  length (rpcs (getCachedGroups opts false env st))
  = match snapshotFresh st (buildAccountKey (baseUrl opts) (account opts)) (clock env) with
    | Some _ => 0%nat
    | None => 1%nat
    end.
Proof.
  rewrite getCachedGroups_run. cbv zeta.
  destruct (snapshotFresh st _ (clock env)); [reflexivity |].
  destruct (daemon env (listGroupsCall opts)); reflexivity.
Qed.

End DecisionCache.

(** C4, as the code has it: of two consecutive calls under the same
    decision key with non-empty requirements, the second one made less
    than 60 seconds after the first stored its decision, the second
    returns the first's boolean, issues no RPC and leaves both caches as
    they were.  The pair issues one RPC when the first call found no
    fresh directory snapshot for its account key, and none when it did. *)
Theorem gate_second_call_served_from_cache
    (parse : string -> option SignalAllowEntry) (normalize : string -> option string)
    (groupId1 groupId2 : string) (required1 required2 : list string)
    (opts1 opts2 : Opts) (env1 env2 : Env) (st : Caches) (allowed : bool)
    (Hkey : decisionKey opts2 groupId2 = decisionKey opts1 groupId1)
    (Hrequired1 : required1 <> [])
    (Hrequired2 : required2 <> [])
    (Hmiss : decisionFresh st (decisionKey opts1 groupId1) (clock env1) = None)
    (Hfirst : outcome (checkGroupHasRequiredMember parse normalize
                         groupId1 required1 opts1 env1 st) = Returned allowed)
    (Hsoon : clock env2 - clock env1 < MEMBERSHIP_CACHE_TTL_MS) :
  let r1 := checkGroupHasRequiredMember parse normalize groupId1 required1 opts1 env1 st in
  let r2 := checkGroupHasRequiredMember parse normalize groupId2 required2 opts2 env2
              (caches r1) in
  outcome r2 = Returned allowed
  /\ rpcs r2 = []
  /\ caches r2 = caches r1
  /\ length (rpcs r1 ++ rpcs r2)
     = match snapshotFresh st (buildAccountKey (baseUrl opts1) (account opts1))
                           (clock env1) with
       | Some _ => 0%nat
       | None => 1%nat
       end.
Proof.
  cbv zeta.
  assert (Hstored :
    membershipCache (caches (checkGroupHasRequiredMember parse normalize
                               groupId1 required1 opts1 env1 st))
      !! decisionKey opts1 groupId1 = Some (Decision.mk allowed (clock env1))
    /\ rpcs (checkGroupHasRequiredMember parse normalize
               groupId1 required1 opts1 env1 st)
       = rpcs (getCachedGroups opts1 false env1 st)).
  { revert Hfirst. rewrite checkGroup_run by exact Hrequired1. rewrite Hmiss.
    cbv zeta.
    destruct (outcome (getCachedGroups opts1 false env1 st)) as [groups | e];
      cbn; [| discriminate].
    intros [= ->]. split; [apply lookup_insert_eq | reflexivity]. }
  destruct Hstored as [Hstored Hrpcs].
  rewrite (checkGroup_hit parse normalize groupId2 required2 opts2 env2 _ allowed
             Hrequired2).
  - cbn. repeat split. rewrite app_nil_r, Hrpcs. apply getCachedGroups_rpc_count.
  - rewrite Hkey. now apply decisionFresh_stored with (at_ := clock env1).
Qed.

Lemma gate_second_call_served_from_cache_witness :
  let first := Sample.serving Sample.directory Sample.t0 in
  let second := Sample.serving [] (Sample.t0 + 59999) in
  let r1 := checkGroupHasRequiredMember Sample.parse Sample.normalize
              "abc123def=" ["+15551111111"] Sample.opts first initial in
  let r2 := checkGroupHasRequiredMember Sample.parse Sample.normalize
              "abc123def=" ["+15559999999"] Sample.opts second (caches r1) in
  outcome r2 = Returned true
  /\ rpcs r2 = []
  /\ caches r2 = caches r1
  /\ length (rpcs r1 ++ rpcs r2) = 1%nat.
Proof.
  apply (gate_second_call_served_from_cache Sample.parse Sample.normalize
           "abc123def=" "abc123def=" ["+15551111111"] ["+15559999999"]
           Sample.opts Sample.opts
           (Sample.serving Sample.directory Sample.t0)
           (Sample.serving [] (Sample.t0 + 59999)) initial true).
  - reflexivity.
  - discriminate.
  - discriminate.
  - reflexivity.
  - reflexivity.
  - reflexivity.
Defined.

(** C4 as stated fails: once an earlier call has fetched the directory,
    two consecutive calls for another group of the same account issue no
    RPC at all, the first of them deciding from the snapshot held. *)
Lemma gate_pair_without_rpc :
  let warm := caches (checkGroupHasRequiredMember Sample.parse Sample.normalize
                        "def456" ["+15552222222"] Sample.opts
                        (Sample.serving Sample.directory Sample.t0) initial) in
  let r1 := checkGroupHasRequiredMember Sample.parse Sample.normalize
              "abc123def=" ["+15551111111"] Sample.opts
              (Sample.serving Sample.directory (Sample.t0 + 1000)) warm in
  let r2 := checkGroupHasRequiredMember Sample.parse Sample.normalize
              "abc123def=" ["+15551111111"] Sample.opts
              (Sample.serving Sample.directory (Sample.t0 + 2000)) (caches r1) in
  decisionFresh warm (decisionKey Sample.opts "abc123def=") (Sample.t0 + 1000) = None
  /\ outcome r1 = Returned true
  /\ membershipCache (caches r1) !! decisionKey Sample.opts "abc123def="
     = Some (Decision.mk true (Sample.t0 + 1000))
  /\ outcome r2 = Returned true
  /\ length (rpcs r1 ++ rpcs r2) = 0%nat
  /\ length (rpcs r1 ++ rpcs r2) <> 1%nat.
Proof. cbv zeta. repeat split; try reflexivity. vm_compute. discriminate. Qed.

(** ** Invalidation *)

Section InvalidateFacts.

Lemma invalidate_run (groupId : option string) (env : Env) (st : Caches) :
  invalidateGroupMembershipCache groupId env st =
  {| outcome := Returned tt;
     caches :=
       {| cachedGroups := cachedGroups st;
          cachedAt := 0;
          cacheAccountKey := cacheAccountKey st;
          membershipCache :=
            match groupId with
            | Some g =>
                if JS.truthy g
                then deleteEndingWith ("|" +:+ g) (membershipCache st)
                else ∅
            | None => ∅
            end |};
     rpcs := [] |}.
Proof. reflexivity. Qed.

(** With [cachedAt = 0] no clock value from the TTL onwards finds the
    snapshot fresh. *)
Lemma stale_snapshot (st : Caches) (accountKey : string) (now : Z) :
  cachedAt st = 0 -> GROUP_ID_CACHE_TTL_MS <= now ->
  snapshotFresh st accountKey now = None.
Proof.
  intros Hat Hnow. unfold snapshotFresh. rewrite Hat.
  destruct (cachedGroups st); [| reflexivity].
  destruct (Z.ltb_spec (now - 0) GROUP_ID_CACHE_TTL_MS); [lia |].
  now rewrite andb_false_r.
Qed.

Lemma stale_refetches (st : Caches) (opts : Opts) (env : Env) :
  cachedAt st = 0 -> GROUP_ID_CACHE_TTL_MS <= clock env ->
  rpcs (getCachedGroups opts false env st) = [listGroupsCall opts].
Proof.
  intros Hat Hnow. rewrite getCachedGroups_run. cbv zeta.
  rewrite stale_snapshot by assumption.
  destruct (daemon env (listGroupsCall opts)); reflexivity.
Qed.

Lemma toLowerCase_empty (s : string) : JS.toLowerCase s = "" -> s = "".
Proof. destruct s; [reflexivity | discriminate]. Qed.

End InvalidateFacts.

(** C5: invalidation with a group id removes the decision held for that
    group under every endpoint and account (every key ending with the
    delimiter and the id) and marks the directory snapshot stale, so that
    the next read re-fetches; the decisions of every other group stay as
    they were (group ids being non-empty and free of the key delimiter);
    without an argument it empties the decision cache and marks the
    snapshot stale. *)
Theorem invalidate_removes_group_and_marks_stale (env : Env) (st : Caches) :
  (forall groupId : string,
      let r := invalidateGroupMembershipCache (Some groupId) env st in
      outcome r = Returned tt
      /\ rpcs r = []
      /\ (forall key, JS.endsWith key ("|" +:+ groupId) = true ->
                      membershipCache (caches r) !! key = None)
      /\ (forall opts, membershipCache (caches r) !! decisionKey opts groupId = None)
      /\ cachedAt (caches r) = 0
      /\ (forall opts env',
             GROUP_ID_CACHE_TTL_MS <= clock env' ->
             rpcs (getCachedGroups opts false env' (caches r)) = [listGroupsCall opts]))
  /\
  (forall (groupId other : string) (opts : Opts),
      groupId <> "" -> delimiterFree groupId ->
      other <> groupId -> delimiterFree other ->
      let r := invalidateGroupMembershipCache (Some groupId) env st in
      membershipCache (caches r) !! decisionKey opts other
      = membershipCache st !! decisionKey opts other)
  /\
  (let r := invalidateGroupMembershipCache None env st in
   outcome r = Returned tt
   /\ rpcs r = []
   /\ membershipCache (caches r) = ∅
   /\ cachedAt (caches r) = 0
   /\ (forall opts env',
          GROUP_ID_CACHE_TTL_MS <= clock env' ->
          rpcs (getCachedGroups opts false env' (caches r)) = [listGroupsCall opts])).
Proof.
  split; [| split].
  - intros groupId. cbv zeta. rewrite invalidate_run. cbn.
    split; [reflexivity |]. split; [reflexivity |].
    split; [| split; [| split]].
    + intros key Hends. destruct (JS.truthy groupId); [| apply lookup_empty].
      now rewrite deleteEndingWith_lookup, Hends.
    + intros opts. destruct (JS.truthy groupId); [| apply lookup_empty].
      now rewrite deleteEndingWith_lookup, decisionKey_endsWith.
    + reflexivity.
    + intros opts env' Hnow. now apply stale_refetches.
  - intros groupId other opts Hnonempty Hfree Hother Hfree'.
    cbv zeta. rewrite invalidate_run. cbn.
    apply truthy_true in Hnonempty. rewrite Hnonempty.
    now rewrite deleteEndingWith_lookup, decisionKey_tail_delimiterFree.
  - cbv zeta. rewrite invalidate_run. cbn. repeat split.
    intros opts env' Hnow. now apply stale_refetches.
Qed.

Lemma invalidate_removes_group_and_marks_stale_witness :
  let both :=
    caches (checkGroupHasRequiredMember Sample.parse Sample.normalize
              "def456" ["+15552222222"] Sample.opts
              (Sample.serving Sample.directory Sample.t0)
              (caches (checkGroupHasRequiredMember Sample.parse Sample.normalize
                         "abc123def=" ["+15551111111"] Sample.opts
                         (Sample.serving Sample.directory Sample.t0) initial))) in
  let r := invalidateGroupMembershipCache (Some "def456")
             (Sample.serving Sample.directory Sample.t0) both in
  membershipCache (caches r) !! decisionKey Sample.opts "def456" = None
  /\ membershipCache (caches r) !! decisionKey Sample.opts "abc123def="
     = Some (Decision.mk true Sample.t0)
  /\ rpcs (getCachedGroups Sample.opts false
             (Sample.serving Sample.directory (Sample.t0 + 1)) (caches r))
     = [listGroupsCall Sample.opts].
Proof.
  intros both r. subst r.
  destruct (invalidate_removes_group_and_marks_stale
              (Sample.serving Sample.directory Sample.t0) both)
    as (Hgroup & Hkept & _).
  destruct (Hgroup "def456") as (_ & _ & _ & Hgone & _ & Hstale).
  split; [apply Hgone |]. split.
  - rewrite (Hkept "def456" "abc123def=" Sample.opts).
    + reflexivity.
    + discriminate.
    + reflexivity.
    + discriminate.
    + reflexivity.
  - apply Hstale. vm_compute. discriminate.
Defined.

(** C9: invalidation by group id deletes exactly the entries whose key
    ends with the delimiter followed by that id, compared case-sensitively.
    A decision cached under an id that differs from it only in letter case
    is kept, and the gate goes on returning that boolean, without an RPC,
    until the entry is 60 seconds old. *)
Theorem invalidate_is_case_sensitive
    (parse : string -> option SignalAllowEntry) (normalize : string -> option string)
    (groupId variant : string) (opts : Opts) (env : Env) (st : Caches)
    (Hdiffers : variant <> groupId)
    (Hcase : JS.toLowerCase variant = JS.toLowerCase groupId) :
  let r := invalidateGroupMembershipCache (Some groupId) env st in
  (forall key,
      membershipCache (caches r) !! key
      = if JS.endsWith key ("|" +:+ groupId) then None else membershipCache st !! key)
  /\ membershipCache (caches r) !! decisionKey opts variant
     = membershipCache st !! decisionKey opts variant
  /\ (forall (allowed : bool) (at_ : Z) (required : list string) (env' : Env),
         membershipCache st !! decisionKey opts variant = Some (Decision.mk allowed at_) ->
         required <> [] ->
         clock env' - at_ < MEMBERSHIP_CACHE_TTL_MS ->
         let r' := checkGroupHasRequiredMember parse normalize variant required opts env'
                     (caches r) in
         outcome r' = Returned allowed /\ rpcs r' = [] /\ caches r' = caches r).
Proof.
  assert (Hnonempty : JS.truthy groupId = true).
  { apply truthy_true. intros ->. apply Hdiffers. now apply toLowerCase_empty. }
  assert (Hlen : String.length variant = String.length groupId).
  { now rewrite <- (toLowerCase_length variant), Hcase, toLowerCase_length. }
  assert (Hkept :
    membershipCache (caches (invalidateGroupMembershipCache (Some groupId) env st))
      !! decisionKey opts variant = membershipCache st !! decisionKey opts variant).
  { rewrite invalidate_run. cbn. rewrite Hnonempty.
    now rewrite deleteEndingWith_lookup, decisionKey_tail_same_length. }
  cbv zeta. split; [| split; [exact Hkept |]].
  - intros key. rewrite invalidate_run. cbn. rewrite Hnonempty.
    apply deleteEndingWith_lookup.
  - intros allowed at_ required env' Hheld Hrequired Hsoon.
    rewrite (checkGroup_hit parse normalize variant required opts env' _ allowed
               Hrequired).
    + now cbn.
    + apply decisionFresh_stored with (at_ := at_); [| exact Hsoon].
      now rewrite Hkept.
Qed.

Lemma invalidate_is_case_sensitive_witness :
  let lowered :=
    caches (checkGroupHasRequiredMember Sample.parse Sample.normalize
              "abc123def=" ["+15551111111"] Sample.opts
              (Sample.serving Sample.directory Sample.t0) initial) in
  let r := invalidateGroupMembershipCache (Some "AbC123dEf=")
             (Sample.serving [] (Sample.t0 + 1000)) lowered in
  let r' := checkGroupHasRequiredMember Sample.parse Sample.normalize
              "abc123def=" ["+15551111111"] Sample.opts
              (Sample.serving [] (Sample.t0 + 2000)) (caches r) in
  membershipCache (caches r) !! decisionKey Sample.opts "abc123def="
  = Some (Decision.mk true Sample.t0)
  /\ outcome r' = Returned true /\ rpcs r' = [] /\ caches r' = caches r.
Proof.
  intros lowered r r'. subst r r'.
  destruct (invalidate_is_case_sensitive Sample.parse Sample.normalize
              "AbC123dEf=" "abc123def=" Sample.opts
              (Sample.serving [] (Sample.t0 + 1000)) lowered)
    as (_ & Hkept & Hserved).
  - discriminate.
  - reflexivity.
  - split.
    + rewrite Hkept. reflexivity.
    + apply (Hserved true Sample.t0 ["+15551111111"]
               (Sample.serving [] (Sample.t0 + 2000))).
      * reflexivity.
      * discriminate.
      * reflexivity.
Defined.

(** ** The resolver *)

Section ResolveFacts.

Lemma filter_none {A : Type} (p : A -> bool) (l : list A) :
  (forall x, x ∈ l -> p x = false) -> List.filter p l = [].
Proof.
  induction l as [|a l IH]; intros Hall; simpl; [reflexivity |].
  rewrite (Hall a) by left. apply IH. intros x Hx. apply Hall. now right.
Qed.

Lemma uniqueMatch_filter (groupId : string) (groups : list SignalGroupEntry)
    (g : SignalGroupEntry) :
  uniqueMatch groupId groups g ->
  List.filter (idIsLowered (JS.toLowerCase groupId)) groups = [g].
Proof.
  intros (pre & post & -> & Hg & Hothers).
  rewrite List.filter_app. simpl.
  apply idIsLowered_spec in Hg. rewrite Hg.
  rewrite !filter_none; [reflexivity | |];
    intros h Hh; apply not_true_is_false; rewrite idIsLowered_spec;
    apply Hothers; apply elem_of_app; auto.
Qed.

Lemma uniqueMatch_exact (groupId : string) (groups : list SignalGroupEntry)
    (g exact : SignalGroupEntry) :
  uniqueMatch groupId groups g ->
  List.find (idIs groupId) groups = Some exact -> exact = g.
Proof.
  intros (pre & post & -> & Hg & Hothers) Hfind.
  apply find_some in Hfind as [Hin Hid].
  apply idIs_spec in Hid. apply list_elem_of_In in Hin.
  apply elem_of_app in Hin as [Hin | Hin];
    [| apply elem_of_cons in Hin as [-> | Hin]; [reflexivity |]];
    exfalso; apply (Hothers exact); [| now rewrite Hid | | now rewrite Hid];
    apply elem_of_app; auto.
Qed.

Lemma filter_nil_none {A : Type} (p : A -> bool) (l : list A) :
  List.filter p l = [] -> forall x, x ∈ l -> p x = false.
Proof.
  intros Hnil x Hx. apply not_true_is_false. intros Hp.
  assert (Hin : In x (List.filter p l)).
  { apply filter_In. split; [now apply list_elem_of_In | exact Hp]. }
  rewrite Hnil in Hin. inversion Hin.
Qed.

Lemma filter_singleton_split {A : Type} (p : A -> bool) (l : list A) (m : A) :
  List.filter p l = [m] ->
  exists pre post,
    l = (pre ++ m :: post)%list /\ p m = true
    /\ forall h, h ∈ (pre ++ post)%list -> p h = false.
Proof.
  induction l as [|a l IH]; simpl; [discriminate |].
  destruct (p a) eqn:Ha.
  - intros [= -> Hrest]. exists [], l. repeat split; [exact Ha |].
    now apply filter_nil_none.
  - intros Hrest. destruct (IH Hrest) as (pre & post & -> & Hm & Hothers).
    exists (a :: pre), post. repeat split; [exact Hm |].
    intros h Hh. apply elem_of_cons in Hh as [-> | Hh]; auto.
Qed.

Lemma filter_uniqueMatch (groupId : string) (groups : list SignalGroupEntry)
    (g : SignalGroupEntry) :
  List.filter (idIsLowered (JS.toLowerCase groupId)) groups = [g] ->
  uniqueMatch groupId groups g.
Proof.
  intros Hfilter.
  destruct (filter_singleton_split _ _ _ Hfilter) as (pre & post & -> & Hg & Hothers).
  exists pre, post. split; [reflexivity |]. split; [now apply idIsLowered_spec |].
  intros h Hh. rewrite <- idIsLowered_spec. rewrite (Hothers h Hh). discriminate.
Qed.

Lemma exact_is_match (groupId : string) (groups : list SignalGroupEntry)
    (g : SignalGroupEntry) :
  g ∈ groups -> id g = groupId ->
  In g (List.filter (idIsLowered (JS.toLowerCase groupId)) groups).
Proof.
  intros Hin Hid. apply filter_In. split; [now apply list_elem_of_In |].
  apply idIsLowered_spec. now rewrite Hid.
Qed.

Lemma find_exact (groupId : string) (groups : list SignalGroupEntry)
    (g : SignalGroupEntry) :
  g ∈ groups -> id g = groupId ->
  exists exact, List.find (idIs groupId) groups = Some exact
                /\ exact ∈ groups /\ id exact = groupId.
Proof.
  intros Hin Hid.
  destruct (List.find (idIs groupId) groups) as [exact|] eqn:Hfind.
  - exists exact. apply find_some in Hfind as [He Hexact].
    repeat split; [now apply list_elem_of_In | now apply idIs_spec].
  - exfalso.
    now apply (proj1 (find_none_iff _ _ (idIs_spec groupId) groups) Hfind g).
Qed.

Lemma notFoundMessage_count (groupId : string) (known : nat) :
  exists text, notFoundMessage groupId known = text +:+ JS.show_nat known.
Proof.
  unfold notFoundMessage.
  exists ("Signal group not found: no group matches " +:+ String dquote groupId
          +:+ String dquote " (case-insensitive). " +:+ "Known groups: ").
  now rewrite !app_assoc_s.
Qed.

Lemma ambiguousMessage_count (groupId : string) (count : nat) :
  exists text text',
    ambiguousMessage groupId count = text +:+ JS.show_nat count +:+ text'.
Proof.
  unfold ambiguousMessage.
  exists ("Signal group ID " +:+ String dquote groupId
          +:+ String dquote " is ambiguous: "),
         (" groups match case-insensitively. "
          +:+ "Provide the exact base64 group ID.").
  now rewrite !app_assoc_s.
Qed.

Lemma resolve_fetches (groupId : string) (opts : Opts) (env : Env) (st : Caches)
    (v : RpcValue) :
  exactInFreshSnapshot st (buildAccountKey (baseUrl opts) (account opts))
                       (clock env) groupId = None ->
  daemon env (listGroupsCall opts) = Resolved v ->
  let groups := arrayOrEmpty v in
  let r := resolveSignalGroupId groupId opts env st in
  outcome r =
    match List.find (idIs groupId) groups with
    | Some exact => Returned (id exact)
    | None =>
        match List.filter (idIsLowered (JS.toLowerCase groupId)) groups with
        | [] => Thrown (Error (notFoundMessage groupId (length groups)))
        | [m] => Returned (id m)
        | matches => Thrown (Error (ambiguousMessage groupId (length matches)))
        end
    end
  /\ rpcs r = [listGroupsCall opts]
  /\ caches r = withSnapshot st groups (clock env)
                  (buildAccountKey (baseUrl opts) (account opts)).
Proof.
  intros Hslow Hreply. cbv zeta. rewrite resolve_run. cbv zeta.
  rewrite Hslow, getCachedGroups_run. cbv zeta. rewrite Hreply. now cbn.
Qed.

Lemma snapshotFresh_held (st : Caches) (accountKey : string) (now : Z)
    (cached : list SignalGroupEntry) :
  cachedGroups st = Some cached ->
  cacheAccountKey st = accountKey ->
  now - cachedAt st < GROUP_ID_CACHE_TTL_MS ->
  snapshotFresh st accountKey now = Some cached.
Proof.
  intros Hheld Hkey Hage. unfold snapshotFresh. rewrite Hheld, Hkey, String.eqb_refl.
  destruct (Z.ltb_spec (now - cachedAt st) GROUP_ID_CACHE_TTL_MS); [reflexivity | lia].
Qed.

End ResolveFacts.

(** C2: when the resolver fetches a group list in which exactly one
    group's id equals the query case-insensitively, it returns that
    group's stored id, whatever the casing of the query; and when a fresh
    snapshot held for the same account key contains a group whose id
    equals the query exactly, that id is returned with no RPC request and
    the caches untouched. *)
Theorem resolve_returns_canonical_id
    (groupId : string) (opts : Opts) (env : Env) (st : Caches) :
  let accountKey := buildAccountKey (baseUrl opts) (account opts) in
  let r := resolveSignalGroupId groupId opts env st in
  (forall (v : RpcValue) (g : SignalGroupEntry),
      exactInFreshSnapshot st accountKey (clock env) groupId = None ->
      daemon env (listGroupsCall opts) = Resolved v ->
      uniqueMatch groupId (arrayOrEmpty v) g ->
      outcome r = Returned (id g) /\ rpcs r = [listGroupsCall opts])
  /\
  (forall (cached : list SignalGroupEntry) (exact : SignalGroupEntry),
      cachedGroups st = Some cached ->
      cacheAccountKey st = accountKey ->
      clock env - cachedAt st < GROUP_ID_CACHE_TTL_MS ->
      exact ∈ cached ->
      id exact = groupId ->
      outcome r = Returned groupId /\ rpcs r = [] /\ caches r = st).
Proof.
  cbv zeta. split.
  - intros v g Hslow Hreply Hunique.
    destruct (resolve_fetches groupId opts env st v Hslow Hreply) as (Hout & Hrpcs & _).
    split; [| exact Hrpcs]. rewrite Hout.
    destruct (List.find (idIs groupId) (arrayOrEmpty v)) as [exact|] eqn:Hfind.
    + now rewrite (uniqueMatch_exact groupId _ g exact Hunique Hfind).
    + now rewrite (uniqueMatch_filter groupId _ g Hunique).
  - intros cached exact Hheld Hkey Hage Hin Hid.
    rewrite resolve_run. cbv zeta. unfold exactInFreshSnapshot.
    rewrite (snapshotFresh_held st _ (clock env) cached Hheld Hkey Hage).
    destruct (List.find (idIs groupId) cached) as [e|] eqn:Hfind.
    + apply find_some in Hfind as [_ He]. apply idIs_spec in He.
      cbn. now rewrite He.
    + exfalso.
      now apply (proj1 (find_none_iff _ _ (idIs_spec groupId) cached) Hfind exact).
Qed.

Lemma resolve_returns_canonical_id_witness :
  let r := resolveSignalGroupId "abc123def=" Sample.opts
             (Sample.serving Sample.directory Sample.t0) initial in
  let r' := resolveSignalGroupId "AbC123dEf=" Sample.opts
              (Sample.failing "timeout" (Sample.t0 + 299999)) (caches r) in
  (outcome r = Returned "AbC123dEf=" /\ rpcs r = [listGroupsCall Sample.opts])
  /\ (outcome r' = Returned "AbC123dEf=" /\ rpcs r' = [] /\ caches r' = caches r).
Proof.
  intros r r'. subst r r'. split.
  - apply (resolve_returns_canonical_id "abc123def=" Sample.opts
             (Sample.serving Sample.directory Sample.t0) initial)
      with (v := Groups Sample.directory) (g := Sample.mixedCase).
    + reflexivity.
    + reflexivity.
    + exists [], [Sample.makeGroup "def456" [Sample.bob]].
      split; [reflexivity |]. split; [reflexivity |].
      intros h Hh. apply list_elem_of_singleton in Hh. subst h. discriminate.
  - apply (resolve_returns_canonical_id "AbC123dEf=" Sample.opts
             (Sample.failing "timeout" (Sample.t0 + 299999)))
      with (cached := Sample.directory) (exact := Sample.mixedCase).
    + reflexivity.
    + reflexivity.
    + reflexivity.
    + left.
    + reflexivity.
Defined.

(** C3 as stated fails: with two groups whose ids equal the query
    case-insensitively, one of them exactly, the resolver returns the
    exact one instead of failing. *)
Lemma resolve_exact_match_among_two :
  let groups := [Sample.makeGroup "ABC" []; Sample.makeGroup "abc" []] in
  let r := resolveSignalGroupId "abc" Sample.opts
             (Sample.serving groups Sample.t0) initial in
  matchCount "abc" groups = 2%nat
  /\ rpcs r = [listGroupsCall Sample.opts]
  /\ outcome r = Returned "abc"
  /\ forall e, outcome r <> Thrown e.
Proof. cbv zeta. repeat split. intros e. vm_compute. discriminate. Qed.

(** C3, as the code has it: on a fetched list with no group whose id
    equals the query case-insensitively the resolver fails with the
    not-found error, whose message ends with the number of groups scanned;
    on a list with no exact match and two or more case-insensitive matches
    it fails with the ambiguity error, whose message carries the match
    count; an exact match is returned even among several case-insensitive
    ones.  So the resolver returns the id of an exact match or of the one
    case-insensitive match, or fails in one of these two ways. *)
Theorem resolve_failure_cases
    (groupId : string) (opts : Opts) (env : Env) (st : Caches) (v : RpcValue)
    (Hslow : exactInFreshSnapshot st (buildAccountKey (baseUrl opts) (account opts))
                                  (clock env) groupId = None)
    (Hreply : daemon env (listGroupsCall opts) = Resolved v) :
  let groups := arrayOrEmpty v in
  let r := resolveSignalGroupId groupId opts env st in
  (matchCount groupId groups = 0%nat ->
   outcome r = Thrown (Error (notFoundMessage groupId (length groups))))
  /\ ((forall g, g ∈ groups -> id g <> groupId) ->
      (2 <= matchCount groupId groups)%nat ->
      outcome r = Thrown (Error (ambiguousMessage groupId (matchCount groupId groups))))
  /\ (forall g, g ∈ groups -> id g = groupId -> outcome r = Returned groupId)
  /\ ((exists g, g ∈ groups /\ outcome r = Returned (id g)
                 /\ (id g = groupId \/ uniqueMatch groupId groups g))
      \/ outcome r = Thrown (Error (notFoundMessage groupId (length groups)))
      \/ outcome r = Thrown (Error (ambiguousMessage groupId (matchCount groupId groups))))
  /\ (exists text, notFoundMessage groupId (length groups)
                   = text +:+ JS.show_nat (length groups))
  /\ (exists text text', ambiguousMessage groupId (matchCount groupId groups)
                         = text +:+ JS.show_nat (matchCount groupId groups) +:+ text').
Proof.
  cbv zeta.
  destruct (resolve_fetches groupId opts env st v Hslow Hreply) as (Hout & _ & _).
  unfold matchCount. rewrite Hout. clear Hout.
  set (groups := arrayOrEmpty v).
  set (matches := List.filter (idIsLowered (JS.toLowerCase groupId)) groups).
  assert (Hexact : forall g, g ∈ groups -> id g = groupId ->
            exists exact, List.find (idIs groupId) groups = Some exact
                          /\ exact ∈ groups /\ id exact = groupId)
    by apply find_exact.
  assert (Hmatch : forall g, g ∈ groups -> id g = groupId -> In g matches)
    by apply exact_is_match.
  split; [| split; [| split; [| split; [| split]]]].
  - intros Hzero.
    destruct (List.find (idIs groupId) groups) as [exact|] eqn:Hfind.
    + apply find_some in Hfind as [Hin Hid].
      apply list_elem_of_In in Hin. apply idIs_spec in Hid.
      specialize (Hmatch exact Hin Hid).
      destruct matches; [inversion Hmatch | discriminate Hzero].
    + destruct matches; [reflexivity | discriminate Hzero].
  - intros Hnone Htwo.
    rewrite (proj2 (find_none_iff _ _ (idIs_spec groupId) groups) Hnone).
    destruct matches as [|m [|m' ms]]; simpl in Htwo; [lia | lia | reflexivity].
  - intros g Hin Hid. destruct (Hexact g Hin Hid) as (exact & -> & _ & ->).
    reflexivity.
  - destruct (List.find (idIs groupId) groups) as [exact|] eqn:Hfind.
    + left. exists exact. apply find_some in Hfind as [Hin Hid].
      apply list_elem_of_In in Hin. apply idIs_spec in Hid. auto.
    + destruct matches as [|m [|m' ms]] eqn:Hmatches.
      * right. now left.
      * left. exists m. pose proof (filter_uniqueMatch _ _ _ Hmatches) as Hunique.
        split; [| split; [reflexivity | now right]].
        destruct Hunique as (pre & post & Hsplit & _). rewrite Hsplit.
        apply elem_of_app. right. left.
      * right. now right.
  - apply notFoundMessage_count.
  - apply ambiguousMessage_count.
Qed.

Lemma resolve_failure_cases_witness :
  let twins := [Sample.makeGroup "Abc" []; Sample.makeGroup "aBC" []] in
  outcome (resolveSignalGroupId "abc123" Sample.opts
             (Sample.serving Sample.directory Sample.t0) initial)
  = Thrown (Error (notFoundMessage "abc123" 2))
  /\ outcome (resolveSignalGroupId "abc" Sample.opts
                (Sample.serving twins Sample.t0) initial)
     = Thrown (Error (ambiguousMessage "abc" 2))
  /\ outcome (resolveSignalGroupId "aBC" Sample.opts
                (Sample.serving twins Sample.t0) initial)
     = Returned "aBC".
Proof.
  intros twins. split; [| split].
  - apply (resolve_failure_cases "abc123" Sample.opts
             (Sample.serving Sample.directory Sample.t0) initial
             (Groups Sample.directory)); reflexivity.
  - destruct (resolve_failure_cases "abc" Sample.opts
                (Sample.serving twins Sample.t0) initial (Groups twins))
      as (_ & Hambiguous & _); [reflexivity | reflexivity |].
    apply Hambiguous.
    + intros g Hg. apply elem_of_cons in Hg as [-> | Hg];
        [| apply list_elem_of_singleton in Hg; subst g]; discriminate.
    + vm_compute. lia.
  - destruct (resolve_failure_cases "aBC" Sample.opts
                (Sample.serving twins Sample.t0) initial (Groups twins))
      as (_ & _ & Hexact & _); [reflexivity | reflexivity |].
    apply (Hexact (Sample.makeGroup "aBC" [])); [right; left | reflexivity].
Defined.

(** ** Scenarios of groups.test.ts *)

Section Scenarios.

Let check := checkGroupHasRequiredMember Sample.parse Sample.normalize.

(** "caches membership results": one RPC for two calls, one entry held. *)
Example caches_membership_results :
  let r1 := check "def456" ["+15552222222"] Sample.opts
              (Sample.serving Sample.directory Sample.t0) initial in
  let r2 := check "def456" ["+15552222222"] Sample.opts
              (Sample.serving Sample.directory Sample.t0) (caches r1) in
  length (rpcs r1 ++ rpcs r2) = 1%nat
  /\ outcome (_getMembershipCacheSize
                (Sample.serving Sample.directory Sample.t0) (caches r2))
     = Returned 1%nat.
Proof. split; reflexivity. Qed.

(** "handles groups with no members array" *)
Example group_without_members :
  outcome (check "abc123" ["+15551111111"] Sample.opts
             (Sample.serving
                [{| id := "abc123"; name := Some "Empty Group"; isMember := Some true;
                    isBlocked := None; members := None |}] Sample.t0) initial)
  = Returned false.
Proof. reflexivity. Qed.

(** "reflects membership changes after invalidation": the stale true is
    served until the group is invalidated, then the new list is read. *)
Example reflects_membership_changes :
  let before := Sample.serving [Sample.makeGroup "abc123" [Sample.alice; Sample.bob]]
                               Sample.t0 in
  let later := Sample.serving [Sample.makeGroup "abc123" [Sample.bob]]
                              (Sample.t0 + 1000) in
  let r1 := check "abc123" ["+15551111111"] Sample.opts before initial in
  let r2 := check "abc123" ["+15551111111"] Sample.opts later (caches r1) in
  let r3 := invalidateGroupMembershipCache (Some "abc123") later (caches r2) in
  let r4 := check "abc123" ["+15551111111"] Sample.opts later (caches r3) in
  outcome r1 = Returned true
  /\ outcome r2 = Returned true /\ rpcs r2 = []
  /\ outcome r4 = Returned false /\ rpcs r4 = [listGroupsCall Sample.opts].
Proof. repeat split; reflexivity. Qed.

(** "invalidates all groups when no groupId specified" *)
Example invalidates_all_groups :
  let env := Sample.serving Sample.directory Sample.t0 in
  let r1 := check "abc123def=" ["+15551111111"] Sample.opts env initial in
  let r2 := check "def456" ["+15552222222"] Sample.opts env (caches r1) in
  let r3 := invalidateGroupMembershipCache None env (caches r2) in
  outcome (_getMembershipCacheSize env (caches r2)) = Returned 2%nat
  /\ outcome (_getMembershipCacheSize env (caches r3)) = Returned 0%nat
  /\ caches (_resetCaches env (caches r2)) = initial.
Proof. repeat split; reflexivity. Qed.

End Scenarios.

(** * Further properties of the module *)

(** ** The directory snapshot *)

Section DirectoryFacts.

(** The two keys of a delimiter-free prefix: the part before the first
    delimiter and the part after it are determined by the key. *)
Lemma key_head_unique (a b c d : string) :
  delimiterFree a -> delimiterFree c ->
  a +:+ "|" +:+ b = c +:+ "|" +:+ d -> a = c /\ b = d.
Proof.
  unfold delimiterFree. revert c.
  induction a as [|x a IH]; intros [|y c] Ha Hc Heq;
    rewrite ?app_cons, ?app_empty_l in Heq.
  - injection Heq as ->. now split.
  - injection Heq as <- _. discriminate Hc.
  - injection Heq as -> _. discriminate Ha.
  - injection Heq as -> Htl. simpl in Ha, Hc.
    apply orb_false_iff in Ha as [_ Ha]. apply orb_false_iff in Hc as [_ Hc].
    destruct (IH c Ha Hc Htl) as [-> ->]. now split.
Qed.

Lemma snapshotFresh_inv (st : Caches) (accountKey : string) (now : Z)
    (cached : list SignalGroupEntry) :
  snapshotFresh st accountKey now = Some cached ->
  cachedGroups st = Some cached
  /\ cacheAccountKey st = accountKey
  /\ now - cachedAt st < GROUP_ID_CACHE_TTL_MS.
Proof.
  unfold snapshotFresh. destruct (cachedGroups st) as [groups|]; [| discriminate].
  destruct (String.eqb_spec (cacheAccountKey st) accountKey) as [Hkey | _];
    [| discriminate].
  destruct (Z.ltb_spec (now - cachedAt st) GROUP_ID_CACHE_TTL_MS) as [Hage | _];
    [| discriminate].
  intros [= ->]. auto.
Qed.

Lemma snapshotFresh_none (st : Caches) (accountKey : string) (now : Z) :
  cachedGroups st = None
  \/ cacheAccountKey st <> accountKey
  \/ GROUP_ID_CACHE_TTL_MS <= now - cachedAt st ->
  snapshotFresh st accountKey now = None.
Proof.
  intros Hwhy. destruct (snapshotFresh st accountKey now) as [cached|] eqn:Hfresh;
    [| reflexivity].
  apply snapshotFresh_inv in Hfresh as (Hheld & Hkey & Hage).
  destruct Hwhy as [Hnone | [Hother | Hold]]; [congruence | contradiction | lia].
Qed.

End DirectoryFacts.

(** X1: a snapshot held for the requested account key is served as long
    as it is younger than five minutes, with no RPC and no change to the
    caches; from an age of exactly five minutes on, the read issues the
    [listGroups] request. *)
Theorem getCachedGroups_ttl_boundary
    (opts : Opts) (env : Env) (st : Caches) (cached : list SignalGroupEntry)
    (Hheld : cachedGroups st = Some cached)
    (Hkey : cacheAccountKey st = buildAccountKey (baseUrl opts) (account opts)) :
  (clock env - cachedAt st < 300000 ->
   getCachedGroups opts false env st
   = {| outcome := Returned cached; caches := st; rpcs := [] |})
  /\ (300000 <= clock env - cachedAt st ->
      rpcs (getCachedGroups opts false env st) = [listGroupsCall opts]).
Proof.
  split; intros Hage; rewrite getCachedGroups_run; cbv zeta.
  - now rewrite (snapshotFresh_held st _ (clock env) cached Hheld Hkey Hage).
  - rewrite snapshotFresh_none by (right; right; exact Hage).
    destruct (daemon env (listGroupsCall opts)); reflexivity.
Qed.

Lemma getCachedGroups_ttl_boundary_witness :
  let st := caches (getCachedGroups Sample.opts false
                      (Sample.serving Sample.directory Sample.t0) initial) in
  getCachedGroups Sample.opts false (Sample.serving [] (Sample.t0 + 299999)) st
  = {| outcome := Returned Sample.directory; caches := st; rpcs := [] |}
  /\ rpcs (getCachedGroups Sample.opts false (Sample.serving [] (Sample.t0 + 300000)) st)
     = [listGroupsCall Sample.opts].
Proof.
  intros st. split.
  - apply (getCachedGroups_ttl_boundary Sample.opts
             (Sample.serving [] (Sample.t0 + 299999)) st Sample.directory);
      reflexivity.
  - apply (getCachedGroups_ttl_boundary Sample.opts
             (Sample.serving [] (Sample.t0 + 300000)) st Sample.directory);
      reflexivity.
Defined.

(** X2: when the read goes to the daemon (forced, or no snapshot held, or
    one held for another key, or one of five minutes or more), exactly
    one request is issued.  A resolved reply is returned, an array as it
    is and anything else as the empty list, and replaces the snapshot
    with the call's clock and key, the decisions staying as they were; a
    rejection is thrown on and leaves the caches as they were. *)
Theorem getCachedGroups_fetch
    (opts : Opts) (forceFresh : bool) (env : Env) (st : Caches)
    (Hfetch : forceFresh = true
              \/ cachedGroups st = None
              \/ cacheAccountKey st <> buildAccountKey (baseUrl opts) (account opts)
              \/ GROUP_ID_CACHE_TTL_MS <= clock env - cachedAt st) :
  let r := getCachedGroups opts forceFresh env st in
  rpcs r = [listGroupsCall opts]
  /\ match daemon env (listGroupsCall opts) with
     | Resolved v =>
         outcome r = Returned (arrayOrEmpty v)
         /\ cachedGroups (caches r) = Some (arrayOrEmpty v)
         /\ cachedAt (caches r) = clock env
         /\ cacheAccountKey (caches r) = buildAccountKey (baseUrl opts) (account opts)
         /\ membershipCache (caches r) = membershipCache st
     | Rejected reason =>
         outcome r = Thrown (TransportFailure reason) /\ caches r = st
     end.
Proof.
  cbv zeta. rewrite getCachedGroups_run. cbv zeta.
  replace (if forceFresh then None else snapshotFresh st _ (clock env))
    with (@None (list SignalGroupEntry)).
  - destruct (daemon env (listGroupsCall opts)); cbn; repeat split.
  - destruct forceFresh; [reflexivity |]. symmetry. apply snapshotFresh_none.
    destruct Hfetch as [Hforce | Hwhy]; [discriminate | exact Hwhy].
Qed.

Lemma getCachedGroups_fetch_witness :
  let st := caches (getCachedGroups Sample.opts false
                      (Sample.serving Sample.directory Sample.t0) initial) in
  let r := getCachedGroups Sample.opts true
             (Sample.failing "timeout" (Sample.t0 + 1)) st in
  rpcs r = [listGroupsCall Sample.opts]
  /\ outcome r = Thrown (TransportFailure "timeout") /\ caches r = st.
Proof.
  intros st r. subst r.
  apply (getCachedGroups_fetch Sample.opts true
           (Sample.failing "timeout" (Sample.t0 + 1)) st).
  now left.
Defined.

(** X3: a list fetched at clock [t] is served, unchanged and with no RPC,
    to every later read under the same account key whose clock is less
    than five minutes past [t], whatever the daemon would answer then. *)
Theorem getCachedGroups_store_then_read
    (opts1 opts2 : Opts) (forceFresh : bool) (env1 env2 : Env) (st : Caches)
    (groups : list SignalGroupEntry)
    (Hkey : buildAccountKey (baseUrl opts2) (account opts2)
            = buildAccountKey (baseUrl opts1) (account opts1))
    (Hfirst : outcome (getCachedGroups opts1 forceFresh env1 st) = Returned groups)
    (Hfetched : rpcs (getCachedGroups opts1 forceFresh env1 st) <> [])
    (Hsoon : clock env2 - clock env1 < GROUP_ID_CACHE_TTL_MS) :
  let r1 := getCachedGroups opts1 forceFresh env1 st in
  getCachedGroups opts2 false env2 (caches r1)
  = {| outcome := Returned groups; caches := caches r1; rpcs := [] |}.
Proof.
  cbv zeta. revert Hfirst Hfetched.
  rewrite (getCachedGroups_run opts1). cbv zeta.
  destruct (if forceFresh then None else snapshotFresh st _ (clock env1)).
  { intros _ Hne. now destruct Hne. }
  destruct (daemon env1 (listGroupsCall opts1)) as [v | reason];
    intros Hout _; cbn in Hout; [| discriminate Hout].
  injection Hout as <-. rewrite getCachedGroups_run. cbv zeta.
  rewrite (snapshotFresh_held _ _ (clock env2) (arrayOrEmpty v));
    [reflexivity | reflexivity | now rewrite Hkey | exact Hsoon].
Qed.

Lemma getCachedGroups_store_then_read_witness :
  let r1 := getCachedGroups Sample.opts true
              (Sample.serving Sample.directory Sample.t0) initial in
  getCachedGroups Sample.opts false (Sample.failing "down" (Sample.t0 + 299999))
                  (caches r1)
  = {| outcome := Returned Sample.directory; caches := caches r1; rpcs := [] |}.
Proof.
  apply (getCachedGroups_store_then_read Sample.opts Sample.opts true
           (Sample.serving Sample.directory Sample.t0)
           (Sample.failing "down" (Sample.t0 + 299999)) initial Sample.directory).
  - reflexivity.
  - reflexivity.
  - discriminate.
  - reflexivity.
Defined.

(** X4: for endpoints without the key delimiter, two option bags with the
    same account key send the same [listGroups] request, timeout apart:
    same endpoint and same account parameter (an empty account and an
    absent one both send none).  Sharing a snapshot by key is sound. *)
Theorem accountKey_identifies_request (opts1 opts2 : Opts)
    (Hurl1 : delimiterFree (baseUrl opts1))
    (Hurl2 : delimiterFree (baseUrl opts2))
    (Hkey : buildAccountKey (baseUrl opts1) (account opts1)
            = buildAccountKey (baseUrl opts2) (account opts2)) :
  rpc_method (listGroupsCall opts1) = rpc_method (listGroupsCall opts2)
  /\ rpc_baseUrl (listGroupsCall opts1) = rpc_baseUrl (listGroupsCall opts2)
  /\ rpc_account (listGroupsCall opts1) = rpc_account (listGroupsCall opts2).
Proof.
  unfold buildAccountKey in Hkey.
  destruct (key_head_unique _ _ _ _ Hurl1 Hurl2 Hkey) as [Hurl Hacct].
  split; [reflexivity |]. split; [exact Hurl |]. cbn.
  destruct (account opts1) as [a1|], (account opts2) as [a2|]; cbn in *.
  - now subst a2.
  - subst a1. reflexivity.
  - subst a2. reflexivity.
  - reflexivity.
Qed.

Lemma accountKey_identifies_request_witness :
  let anonymous := {| baseUrl := "http://localhost:8080"; account := None;
                      timeoutMs := Some 500 |} in
  let blank := {| baseUrl := "http://localhost:8080"; account := Some "";
                  timeoutMs := None |} in
  rpc_method (listGroupsCall anonymous) = rpc_method (listGroupsCall blank)
  /\ rpc_baseUrl (listGroupsCall anonymous) = rpc_baseUrl (listGroupsCall blank)
  /\ rpc_account (listGroupsCall anonymous) = rpc_account (listGroupsCall blank).
Proof.
  intros anonymous blank.
  apply (accountKey_identifies_request anonymous blank); reflexivity.
Defined.

Section FrameFacts.

Lemma getCachedGroups_keeps_decisions (opts : Opts) (forceFresh : bool)
    (env : Env) (st : Caches) :
  membershipCache (caches (getCachedGroups opts forceFresh env st))
  = membershipCache st.
Proof.
  rewrite getCachedGroups_run. cbv zeta.
  destruct (if forceFresh then None else snapshotFresh st _ (clock env));
    [reflexivity |].
  destruct (daemon env (listGroupsCall opts)); reflexivity.
Qed.

Lemma getCachedGroups_rpcs (opts : Opts) (forceFresh : bool) (env : Env) (st : Caches) :
  rpcs (getCachedGroups opts forceFresh env st) = []
  \/ rpcs (getCachedGroups opts forceFresh env st) = [listGroupsCall opts].
Proof.
  rewrite getCachedGroups_run. cbv zeta.
  destruct (if forceFresh then None else snapshotFresh st _ (clock env));
    [now left |].
  destruct (daemon env (listGroupsCall opts)); now right.
Qed.

(** After a read that returned, the snapshot held is the list returned,
    under the key of the read. *)
Lemma getCachedGroups_holds (opts : Opts) (forceFresh : bool) (env : Env) (st : Caches)
    (groups : list SignalGroupEntry) :
  outcome (getCachedGroups opts forceFresh env st) = Returned groups ->
  cachedGroups (caches (getCachedGroups opts forceFresh env st)) = Some groups
  /\ cacheAccountKey (caches (getCachedGroups opts forceFresh env st))
     = buildAccountKey (baseUrl opts) (account opts).
Proof.
  rewrite getCachedGroups_run. cbv zeta.
  destruct (if forceFresh then None else snapshotFresh st _ (clock env))
    as [cached|] eqn:Hfresh.
  - destruct forceFresh; [discriminate Hfresh |].
    apply snapshotFresh_inv in Hfresh as (Hheld & Hkey & _).
    cbn. intros [= <-]. now split.
  - destruct (daemon env (listGroupsCall opts)); cbn; [| discriminate].
    intros [= <-]. now split.
Qed.

End FrameFacts.

(** X5: the module holds one snapshot.  Once a read for one account key
    has returned, a read for any other account key goes to the daemon,
    however recent the snapshot is. *)
Theorem snapshot_is_single
    (opts1 opts2 : Opts) (forceFresh : bool) (env1 env2 : Env) (st : Caches)
    (groups : list SignalGroupEntry)
    (Hother : buildAccountKey (baseUrl opts2) (account opts2)
              <> buildAccountKey (baseUrl opts1) (account opts1))
    (Hfirst : outcome (getCachedGroups opts1 forceFresh env1 st) = Returned groups) :
  rpcs (getCachedGroups opts2 false env2
          (caches (getCachedGroups opts1 forceFresh env1 st)))
  = [listGroupsCall opts2].
Proof.
  destruct (getCachedGroups_holds opts1 forceFresh env1 st groups Hfirst) as [_ Hkey].
  rewrite (getCachedGroups_run opts2). cbv zeta.
  rewrite snapshotFresh_none.
  - destruct (daemon env2 (listGroupsCall opts2)); reflexivity.
  - right. left. rewrite Hkey. congruence.
Qed.

Lemma snapshot_is_single_witness :
  let other := {| baseUrl := "http://localhost:8080"; account := Some "+19999999999";
                  timeoutMs := None |} in
  rpcs (getCachedGroups other false (Sample.serving [] (Sample.t0 + 1))
          (caches (getCachedGroups Sample.opts false
                     (Sample.serving Sample.directory Sample.t0) initial)))
  = [listGroupsCall other].
Proof.
  intros other.
  apply (snapshot_is_single Sample.opts other false
           (Sample.serving Sample.directory Sample.t0)
           (Sample.serving [] (Sample.t0 + 1)) initial Sample.directory).
  - discriminate.
  - reflexivity.
Defined.

(** X6: whatever its outcome, a call of the membership check changes no
    decision other than the one under its own key: the entries of other
    groups and accounts, expired ones included, stay as they were. *)
Theorem gate_touches_only_its_key
    (parse : string -> option SignalAllowEntry) (normalize : string -> option string)
    (groupId : string) (required : list string) (opts : Opts)
    (env : Env) (st : Caches) (key : string)
    (Hother : key <> decisionKey opts groupId) :
  membershipCache
    (caches (checkGroupHasRequiredMember parse normalize groupId required opts env st))
    !! key
  = membershipCache st !! key.
Proof.
  destruct required as [|x xs]; [reflexivity |].
  rewrite checkGroup_run by discriminate.
  destruct (decisionFresh st _ (clock env)); [reflexivity |].
  cbv zeta.
  pose proof (getCachedGroups_keeps_decisions opts false env st) as Hkeeps.
  destruct (outcome (getCachedGroups opts false env st));
    cbn [caches membershipCache withDecision].
  - rewrite lookup_insert_ne by congruence. now rewrite Hkeeps.
  - now rewrite Hkeeps.
Qed.

Lemma gate_touches_only_its_key_witness :
  let st := caches (checkGroupHasRequiredMember Sample.parse Sample.normalize
                      "def456" ["+15552222222"] Sample.opts
                      (Sample.serving Sample.directory Sample.t0) initial) in
  membershipCache
    (caches (checkGroupHasRequiredMember Sample.parse Sample.normalize
               "abc123def=" ["+15559999999"] Sample.opts
               (Sample.serving [] (Sample.t0 + 400000)) st))
    !! decisionKey Sample.opts "def456"
  = Some (Decision.mk true Sample.t0).
Proof.
  intros st.
  rewrite (gate_touches_only_its_key Sample.parse Sample.normalize
             "abc123def=" ["+15559999999"] Sample.opts
             (Sample.serving [] (Sample.t0 + 400000)) st
             (decisionKey Sample.opts "def456")).
  - reflexivity.
  - discriminate.
Defined.

(** X7: the resolver and the directory read never change the decision
    cache, whether they return, fail to resolve or pass on a transport
    failure. *)
Theorem resolver_keeps_decisions
    (groupId : string) (opts : Opts) (forceFresh : bool) (env : Env) (st : Caches) :
  membershipCache (caches (resolveSignalGroupId groupId opts env st))
  = membershipCache st
  /\ membershipCache (caches (getCachedGroups opts forceFresh env st))
     = membershipCache st.
Proof.
  split; [| apply getCachedGroups_keeps_decisions].
  rewrite resolve_run. cbv zeta.
  destruct (exactInFreshSnapshot st _ (clock env) groupId); [reflexivity |].
  pose proof (getCachedGroups_keeps_decisions opts true env st) as Hkeeps.
  destruct (outcome (getCachedGroups opts true env st)); exact Hkeeps.
Qed.

(** X8: a call of the membership check or of the resolver issues at most
    one RPC request, and that request is the [listGroups] call for the
    call's own options. *)
Theorem one_request_per_call
    (parse : string -> option SignalAllowEntry) (normalize : string -> option string)
    (groupId : string) (required : list string) (opts : Opts)
    (env : Env) (st : Caches) :
  let gate := checkGroupHasRequiredMember parse normalize groupId required opts env st in
  let resolver := resolveSignalGroupId groupId opts env st in
  (rpcs gate = [] \/ rpcs gate = [listGroupsCall opts])
  /\ (rpcs resolver = [] \/ rpcs resolver = [listGroupsCall opts]).
Proof.
  cbv zeta. split.
  - destruct required as [|x xs]; [now left |].
    rewrite checkGroup_run by discriminate.
    destruct (decisionFresh st _ (clock env)); [now left |].
    cbv zeta. pose proof (getCachedGroups_rpcs opts false env st) as Hrpcs.
    destruct (outcome (getCachedGroups opts false env st)); exact Hrpcs.
  - rewrite resolve_run. cbv zeta.
    destruct (exactInFreshSnapshot st _ (clock env) groupId); [now left |].
    pose proof (getCachedGroups_rpcs opts true env st) as Hrpcs.
    destruct (outcome (getCachedGroups opts true env st)); exact Hrpcs.
Qed.

(** ** The resolver, beyond the claims *)

Section ResolverFacts.

(** How a returning run of the resolver came about: by the fast path, or
    by a fetch followed by an exact or a single case-insensitive match. *)
Lemma resolve_returned_cases (groupId : string) (opts : Opts) (env : Env) (st : Caches)
    (x : string) :
  let accountKey := buildAccountKey (baseUrl opts) (account opts) in
  let r := resolveSignalGroupId groupId opts env st in
  outcome r = Returned x ->
  (exists cached exact,
      snapshotFresh st accountKey (clock env) = Some cached
      /\ exact ∈ cached /\ id exact = groupId /\ x = groupId
      /\ caches r = st /\ rpcs r = [])
  \/ (exists v g,
        exactInFreshSnapshot st accountKey (clock env) groupId = None
        /\ daemon env (listGroupsCall opts) = Resolved v
        /\ g ∈ arrayOrEmpty v /\ id g = x
        /\ JS.toLowerCase x = JS.toLowerCase groupId
        /\ (List.find (idIs groupId) (arrayOrEmpty v) = Some g
            \/ (List.find (idIs groupId) (arrayOrEmpty v) = None
                /\ List.filter (idIsLowered (JS.toLowerCase groupId)) (arrayOrEmpty v)
                   = [g]))
        /\ caches r = withSnapshot st (arrayOrEmpty v) (clock env) accountKey
        /\ rpcs r = [listGroupsCall opts]).
Proof.
  cbv zeta. rewrite resolve_run. cbv zeta.
  destruct (exactInFreshSnapshot st _ (clock env) groupId) as [exact|] eqn:Hfast.
  - cbn. intros [= <-]. left. unfold exactInFreshSnapshot in Hfast.
    destruct (snapshotFresh st _ (clock env)) as [cached|]; [| discriminate].
    apply find_some in Hfast as [Hin Hid]. apply idIs_spec in Hid.
    exists cached, exact. repeat split; auto. now apply list_elem_of_In.
  - rewrite getCachedGroups_run. cbv zeta.
    destruct (daemon env (listGroupsCall opts)) as [v | reason]; cbn;
      [| discriminate].
    destruct (List.find (idIs groupId) (arrayOrEmpty v)) as [exact|] eqn:Hfind.
    + intros [= <-]. right. exists v, exact.
      pose proof Hfind as Hsome. apply find_some in Hsome as [Hin Hid].
      apply idIs_spec in Hid.
      repeat split; auto; [now apply list_elem_of_In | now rewrite Hid].
    + destruct (List.filter _ (arrayOrEmpty v)) as [|m [|m' ms]] eqn:Hfilter;
        [discriminate | | discriminate].
      intros [= <-]. right. exists v, m.
      assert (Hm : In m (List.filter (idIsLowered (JS.toLowerCase groupId))
                            (arrayOrEmpty v))) by (rewrite Hfilter; now left).
      apply filter_In in Hm as [Hin Hlow]. apply idIsLowered_spec in Hlow.
      repeat split; auto. now apply list_elem_of_In.
Qed.

Lemma filter_singleton_find {A : Type} (p : A -> bool) (l : list A) (m : A) :
  List.filter p l = [m] -> List.find p l = Some m.
Proof.
  intros Hfilter.
  destruct (filter_singleton_split p l m Hfilter) as (pre & post & -> & Hm & Hothers).
  apply (find_firstSuch p (fun x => p x = true) (fun x => iff_refl _)).
  exists pre, post. repeat split; [exact Hm |].
  intros y Hy. rewrite Hothers; [discriminate |]. apply elem_of_app. now left.
Qed.

Lemma findGroup_none_iff (groupId : string) (groups : list SignalGroupEntry) :
  findGroup groupId groups = None <-> matchCount groupId groups = 0%nat.
Proof.
  unfold findGroup, matchCount. split.
  - destruct (List.find (idIs groupId) groups); [discriminate |].
    intros Hnone. rewrite filter_none; [reflexivity |].
    intros g Hg. apply list_elem_of_In in Hg.
    exact (find_none _ _ Hnone g Hg).
  - intros Hzero. apply length_zero_iff_nil in Hzero.
    pose proof (filter_nil_none _ _ Hzero) as Hall.
    destruct (List.find (idIs groupId) groups) as [exact|] eqn:Hfind.
    + apply find_some in Hfind as [Hin Hid]. apply idIs_spec in Hid.
      apply list_elem_of_In in Hin. specialize (Hall exact Hin).
      assert (idIsLowered (JS.toLowerCase groupId) exact = true)
        by (apply idIsLowered_spec; now rewrite Hid).
      congruence.
    + destruct (List.find (idIsLowered (JS.toLowerCase groupId)) groups) as [g|] eqn:Hlow;
        [| reflexivity].
      apply find_some in Hlow as [Hin Hg]. apply list_elem_of_In in Hin.
      rewrite (Hall g Hin) in Hg. discriminate.
Qed.

End ResolverFacts.

(** X9: whenever the resolver returns an id, that id equals the query
    case-insensitively and is the id of a group in the snapshot the
    module holds, for the call's account key, when the call ends. *)
Theorem resolver_result_is_sound
    (groupId : string) (opts : Opts) (env : Env) (st : Caches) (x : string)
    (Hreturned : outcome (resolveSignalGroupId groupId opts env st) = Returned x) :
  let r := resolveSignalGroupId groupId opts env st in
  JS.toLowerCase x = JS.toLowerCase groupId
  /\ exists held g,
       cachedGroups (caches r) = Some held
       /\ cacheAccountKey (caches r) = buildAccountKey (baseUrl opts) (account opts)
       /\ g ∈ held /\ id g = x.
Proof.
  cbv zeta.
  destruct (resolve_returned_cases groupId opts env st x Hreturned)
    as [(cached & exact & Hfresh & Hin & Hid & -> & -> & _)
       | (v & g & _ & _ & Hin & Hid & Hlow & _ & -> & _)].
  - split; [reflexivity |].
    apply snapshotFresh_inv in Hfresh as (Hheld & Hkey & _).
    exists cached, exact. auto.
  - split; [exact Hlow |]. exists (arrayOrEmpty v), g. cbn. auto.
Qed.

Lemma resolver_result_is_sound_witness :
  let r := resolveSignalGroupId "abc123def=" Sample.opts
             (Sample.serving Sample.directory Sample.t0) initial in
  JS.toLowerCase "AbC123dEf=" = JS.toLowerCase "abc123def="
  /\ exists held g,
       cachedGroups (caches r) = Some held
       /\ cacheAccountKey (caches r)
          = buildAccountKey (baseUrl Sample.opts) (account Sample.opts)
       /\ g ∈ held /\ id g = "AbC123dEf=".
Proof.
  apply (resolver_result_is_sound "abc123def=" Sample.opts
           (Sample.serving Sample.directory Sample.t0) initial "AbC123dEf=").
  reflexivity.
Defined.

(** X10: the id the resolver returned resolves to itself.  As long as the
    snapshot held after the first call is younger than five minutes,
    resolving the returned id under the same options returns it again by
    the fast path: no RPC, no change to the caches. *)
Theorem resolver_result_is_stable
    (groupId : string) (opts : Opts) (env1 env2 : Env) (st : Caches) (x : string)
    (Hreturned : outcome (resolveSignalGroupId groupId opts env1 st) = Returned x)
    (Hsoon : clock env2 - cachedAt (caches (resolveSignalGroupId groupId opts env1 st))
             < GROUP_ID_CACHE_TTL_MS) :
  let r1 := resolveSignalGroupId groupId opts env1 st in
  resolveSignalGroupId x opts env2 (caches r1)
  = {| outcome := Returned x; caches := caches r1; rpcs := [] |}.
Proof.
  cbv zeta.
  assert (Hheld : exists held g,
             cachedGroups (caches (resolveSignalGroupId groupId opts env1 st)) = Some held
             /\ cacheAccountKey (caches (resolveSignalGroupId groupId opts env1 st))
                = buildAccountKey (baseUrl opts) (account opts)
             /\ g ∈ held /\ id g = x).
  { destruct (resolve_returned_cases groupId opts env1 st x Hreturned)
      as [(cached & exact & Hfresh & Hin & Hid & -> & -> & _)
         | (v & g & _ & _ & Hin & Hid & _ & _ & -> & _)].
    - apply snapshotFresh_inv in Hfresh as (Hheld & Hkey & _).
      exists cached, exact. auto.
    - exists (arrayOrEmpty v), g. cbn. auto. }
  destruct Hheld as (held & g & Hheld & Hkey & Hin & Hid).
  rewrite (resolve_run x). cbv zeta. unfold exactInFreshSnapshot.
  rewrite (snapshotFresh_held _ _ (clock env2) held Hheld Hkey Hsoon).
  destruct (find_exact x held g Hin Hid) as (exact & -> & _ & ->).
  reflexivity.
Qed.

Lemma resolver_result_is_stable_witness :
  let r1 := resolveSignalGroupId "abc123def=" Sample.opts
              (Sample.serving Sample.directory Sample.t0) initial in
  resolveSignalGroupId "AbC123dEf=" Sample.opts
    (Sample.failing "down" (Sample.t0 + 1000)) (caches r1)
  = {| outcome := Returned "AbC123dEf="; caches := caches r1; rpcs := [] |}.
Proof.
  apply (resolver_result_is_stable "abc123def=" Sample.opts
           (Sample.serving Sample.directory Sample.t0)
           (Sample.failing "down" (Sample.t0 + 1000)) initial "AbC123dEf=").
  - reflexivity.
  - reflexivity.
Defined.

(** X11: a failing run of the resolver has issued its one request.  When
    the daemon rejected it, the rejection is thrown and the caches are as
    before; when the daemon answered, the error is one of the resolver's
    own (not found, ambiguous) and the fetched list has all the same
    replaced the snapshot, with the call's clock and key. *)
Theorem resolver_failure_effects
    (groupId : string) (opts : Opts) (env : Env) (st : Caches) (e : Exn)
    (Hthrown : outcome (resolveSignalGroupId groupId opts env st) = Thrown e) :
  let r := resolveSignalGroupId groupId opts env st in
  rpcs r = [listGroupsCall opts]
  /\ match daemon env (listGroupsCall opts) with
     | Rejected reason => e = TransportFailure reason /\ caches r = st
     | Resolved v =>
         (exists message, e = Error message)
         /\ caches r = withSnapshot st (arrayOrEmpty v) (clock env)
                         (buildAccountKey (baseUrl opts) (account opts))
     end.
Proof.
  cbv zeta. revert Hthrown. rewrite resolve_run. cbv zeta.
  destruct (exactInFreshSnapshot st _ (clock env) groupId); [discriminate |].
  rewrite getCachedGroups_run. cbv zeta.
  destruct (daemon env (listGroupsCall opts)) as [v | reason]; cbn.
  - destruct (List.find (idIs groupId) (arrayOrEmpty v)); [discriminate |].
    destruct (List.filter _ (arrayOrEmpty v)) as [|m [|m' ms]];
      intros [= <-]; repeat split; eauto.
  - intros [= <-]. auto.
Qed.

Lemma resolver_failure_effects_witness :
  let r := resolveSignalGroupId "unknown" Sample.opts
             (Sample.serving Sample.directory Sample.t0) initial in
  rpcs r = [listGroupsCall Sample.opts]
  /\ (exists message, Error (notFoundMessage "unknown" 2) = Error message)
  /\ caches r = withSnapshot initial Sample.directory Sample.t0
                  (buildAccountKey (baseUrl Sample.opts) (account Sample.opts)).
Proof.
  apply (resolver_failure_effects "unknown" Sample.opts
           (Sample.serving Sample.directory Sample.t0) initial
           (Error (notFoundMessage "unknown" 2))).
  reflexivity.
Defined.

(** X12: the membership check and the resolver look the group up alike,
    up to ambiguity.  On one group list, the check finds no group exactly
    when no id equals the query case-insensitively; a group it finds has
    an id equal to the query case-insensitively; and whenever the
    resolver returns an id from a fetched list, the check locates in that
    list a group with this very id. *)
Theorem gate_and_resolver_locate_alike
    (groupId : string) (groups : list SignalGroupEntry) :
  (findGroup groupId groups = None <-> matchCount groupId groups = 0%nat)
  /\ (forall g, findGroup groupId groups = Some g ->
                g ∈ groups /\ JS.toLowerCase (id g) = JS.toLowerCase groupId)
  /\ (forall (opts : Opts) (env : Env) (st : Caches) (v : RpcValue) (x : string),
         exactInFreshSnapshot st (buildAccountKey (baseUrl opts) (account opts))
                              (clock env) groupId = None ->
         daemon env (listGroupsCall opts) = Resolved v ->
         arrayOrEmpty v = groups ->
         outcome (resolveSignalGroupId groupId opts env st) = Returned x ->
         exists g, findGroup groupId groups = Some g /\ id g = x).
Proof.
  split; [apply findGroup_none_iff |]. split.
  - unfold findGroup. intros g.
    destruct (List.find (idIs groupId) groups) as [exact|] eqn:Hfind.
    + intros [= <-]. apply find_some in Hfind as [Hin Hid].
      apply idIs_spec in Hid. split; [now apply list_elem_of_In | now rewrite Hid].
    + intros Hlow. apply find_some in Hlow as [Hin Hg].
      split; [now apply list_elem_of_In | now apply idIsLowered_spec].
  - intros opts env st v x Hslow Hreply <- Hreturned.
    destruct (resolve_returned_cases groupId opts env st x Hreturned)
      as [(cached & exact & Hfresh & Hin & Hid & _)
         | (v' & g & _ & Hreply' & _ & Hid & _ & Hhow & _)].
    + unfold exactInFreshSnapshot in Hslow. rewrite Hfresh in Hslow.
      exfalso.
      now apply (proj1 (find_none_iff _ _ (idIs_spec groupId) cached) Hslow exact).
    + rewrite Hreply in Hreply'. injection Hreply' as <-.
      exists g. split; [| exact Hid]. unfold findGroup.
      destruct Hhow as [-> | [-> Hfilter]]; [reflexivity |].
      now apply filter_singleton_find.
Qed.

Lemma gate_and_resolver_locate_alike_witness :
  matchCount "unknown" Sample.directory = 0%nat
  /\ (Sample.mixedCase ∈ Sample.directory
      /\ JS.toLowerCase (id Sample.mixedCase) = JS.toLowerCase "abc123def=")
  /\ exists g, findGroup "abc123def=" Sample.directory = Some g
               /\ id g = "AbC123dEf=".
Proof.
  destruct (gate_and_resolver_locate_alike "unknown" Sample.directory)
    as (Hnone & _ & _).
  destruct (gate_and_resolver_locate_alike "abc123def=" Sample.directory)
    as (_ & Hfound & Hagree).
  split; [apply Hnone; reflexivity |]. split.
  - apply Hfound. reflexivity.
  - apply (Hagree Sample.opts (Sample.serving Sample.directory Sample.t0) initial
             (Groups Sample.directory) "AbC123dEf="); reflexivity.
Defined.


(** ** The membership check, beyond the claims *)

Section CheckFacts.

Variable parse : string -> option SignalAllowEntry.
Variable normalize : string -> option string.

Lemma requiresPhone_mono (required required' : list string) (p : string) :
  (forall s, s ∈ required -> s ∈ required') ->
  requiresPhone parse required p -> requiresPhone parse required' p.
Proof. intros Hsub (s & Hs & Hparse). exists s. auto. Qed.

Lemma requiresUuid_mono (required required' : list string) (u : string) :
  (forall s, s ∈ required -> s ∈ required') ->
  requiresUuid parse required u -> requiresUuid parse required' u.
Proof. intros Hsub (s & Hs & Hparse). exists s. auto. Qed.

Lemma gateDecision_mono (groupId : string) (required required' : list string)
    (groups : list SignalGroupEntry) :
  (forall s, s ∈ required -> s ∈ required') ->
  gateDecision parse normalize groupId required groups = true ->
  gateDecision parse normalize groupId required' groups = true.
Proof.
  intros Hsub. unfold gateDecision.
  destruct (findGroup groupId groups) as [group|]; [| discriminate].
  destruct (existsb isAny (parseRequired parse required')) eqn:Hany'; [reflexivity |].
  destruct (existsb isAny (parseRequired parse required)) eqn:Hany.
  - apply wildcard_parsed in Hany as (s & Hs & Hparse).
    assert (existsb isAny (parseRequired parse required') = true)
      by (apply wildcard_parsed; eauto).
    congruence.
  - rewrite !existsb_exists. intros (member & Hin & Hm). exists member.
    split; [exact Hin |]. apply memberMatches_iff. apply memberMatches_iff in Hm.
    destruct Hm as [(n & p & Hn & Hne & Hnorm & Hp & Hreq) | (u & Hu & Hne & Hreq)].
    + left. exists n, p. eauto 10 using requiresPhone_mono.
    + right. exists u. eauto using requiresUuid_mono.
Qed.

Lemma gateDecision_same_elements (groupId : string) (required required' : list string)
    (groups : list SignalGroupEntry) :
  (forall s, s ∈ required <-> s ∈ required') ->
  gateDecision parse normalize groupId required groups
  = gateDecision parse normalize groupId required' groups.
Proof.
  intros Hsame.
  destruct (gateDecision parse normalize groupId required groups) eqn:Hb.
  - symmetry. apply (gateDecision_mono groupId required required'); [| exact Hb].
    intros s. apply Hsame.
  - destruct (gateDecision parse normalize groupId required' groups) eqn:Hb';
      [| reflexivity].
    rewrite <- Hb. apply (gateDecision_mono groupId required' required); [| exact Hb'].
    intros s. apply Hsame.
Qed.

Lemma decisionFresh_expired (st : Caches) (key : string) (held : Decision.t) (now : Z) :
  membershipCache st !! key = Some held ->
  MEMBERSHIP_CACHE_TTL_MS <= now - Decision.cachedAt held ->
  decisionFresh st key now = None.
Proof.
  intros Hheld Hold. unfold decisionFresh. rewrite Hheld.
  destruct (Z.ltb_spec (now - Decision.cachedAt held) MEMBERSHIP_CACHE_TTL_MS);
    [lia | reflexivity].
Qed.

Lemma decisionFresh_dropped (st : Caches) (key : string) (now : Z) :
  decisionFresh (dropDecision st key) key now = None.
Proof. unfold decisionFresh, dropDecision. cbn. now rewrite lookup_delete_eq. Qed.

End CheckFacts.

(** X14: a decision of 60 seconds or more counts as absent.  The check
    then runs as it would without the entry, with the same outcome and
    the same requests, and when it returns the entry has been replaced
    by the new decision with the call's clock. *)
Theorem expired_decision_counts_as_absent
    (parse : string -> option SignalAllowEntry) (normalize : string -> option string)
    (groupId : string) (required : list string) (opts : Opts)
    (env : Env) (st : Caches) (held : Decision.t)
    (Hrequired : required <> [])
    (Hheld : membershipCache st !! decisionKey opts groupId = Some held)
    (Hold : 60000 <= clock env - Decision.cachedAt held) :
  let key := decisionKey opts groupId in
  let r := checkGroupHasRequiredMember parse normalize groupId required opts env st in
  let r0 := checkGroupHasRequiredMember parse normalize groupId required opts env
              (dropDecision st key) in
  outcome r = outcome r0
  /\ rpcs r = rpcs r0
  /\ forall allowed,
       outcome r = Returned allowed ->
       caches r = caches r0
       /\ membershipCache (caches r) !! key = Some (Decision.mk allowed (clock env)).
Proof.
  cbv zeta. rewrite !checkGroup_run by exact Hrequired.
  rewrite (decisionFresh_expired st _ held (clock env) Hheld Hold).
  rewrite decisionFresh_dropped. cbv zeta.
  rewrite !getCachedGroups_run. cbv zeta.
  change (snapshotFresh (dropDecision st (decisionKey opts groupId)))
    with (snapshotFresh st).
  destruct (snapshotFresh st _ (clock env)) as [cached|].
  - cbn. split; [reflexivity |]. split; [reflexivity |].
    intros allowed [= <-]. split; [| apply lookup_insert_eq].
    unfold withDecision, dropDecision. cbn. now rewrite insert_delete_eq.
  - destruct (daemon env (listGroupsCall opts)) as [v | reason]; cbn.
    + split; [reflexivity |]. split; [reflexivity |].
      intros allowed [= <-]. split; [| apply lookup_insert_eq].
      unfold withDecision, withSnapshot, dropDecision. cbn.
      now rewrite insert_delete_eq.
    + split; [reflexivity |]. split; [reflexivity |]. discriminate.
Qed.

Lemma expired_decision_counts_as_absent_witness :
  let st := caches (checkGroupHasRequiredMember Sample.parse Sample.normalize
                      "def456" ["+15552222222"] Sample.opts
                      (Sample.serving Sample.directory Sample.t0) initial) in
  let later := Sample.serving [Sample.makeGroup "def456" [Sample.alice]]
                              (Sample.t0 + 60000) in
  let r := checkGroupHasRequiredMember Sample.parse Sample.normalize
             "def456" ["+15552222222"] Sample.opts later st in
  outcome r = Returned true
  /\ membershipCache (caches r) !! decisionKey Sample.opts "def456"
     = Some (Decision.mk true (Sample.t0 + 60000)).
Proof.
  intros st later r. subst r.
  destruct (expired_decision_counts_as_absent Sample.parse Sample.normalize
              "def456" ["+15552222222"] Sample.opts later st
              (Decision.mk true Sample.t0)) as (_ & _ & Hstored).
  - discriminate.
  - reflexivity.
  - reflexivity.
  - split; [reflexivity |]. apply (Hstored true). reflexivity.
Defined.

(** X15: adding entries to a non-empty requirement list can only open the
    check: on the same state, clock and daemon, if the check returns true
    for a list it returns true for every list that contains its entries. *)
Theorem more_entries_never_close_the_check
    (parse : string -> option SignalAllowEntry) (normalize : string -> option string)
    (groupId : string) (required required' : list string) (opts : Opts)
    (env : Env) (st : Caches)
    (Hrequired : required <> [])
    (Hsub : forall s, s ∈ required -> s ∈ required')
    (Htrue : outcome (checkGroupHasRequiredMember parse normalize
                        groupId required opts env st) = Returned true) :
  outcome (checkGroupHasRequiredMember parse normalize groupId required' opts env st)
  = Returned true.
Proof.
  assert (Hrequired' : required' <> []).
  { destruct required as [|s l]; [congruence |]. intros ->.
    specialize (Hsub s ltac:(left)). inversion Hsub. }
  revert Htrue. rewrite !checkGroup_run by assumption.
  destruct (decisionFresh st _ (clock env)); [trivial |].
  cbv zeta.
  destruct (outcome (getCachedGroups opts false env st)) as [groups | e];
    [| trivial].
  cbn. intros [= Hb]. f_equal.
  now apply (gateDecision_mono parse normalize groupId required required').
Qed.

Lemma more_entries_never_close_the_check_witness :
  outcome (checkGroupHasRequiredMember Sample.parse Sample.normalize
             "def456" ["+15559999999"; "+15552222222"; "uuid:none"] Sample.opts
             (Sample.serving Sample.directory Sample.t0) initial)
  = Returned true.
Proof.
  apply (more_entries_never_close_the_check Sample.parse Sample.normalize
           "def456" ["+15552222222"]
           ["+15559999999"; "+15552222222"; "uuid:none"] Sample.opts
           (Sample.serving Sample.directory Sample.t0) initial).
  - discriminate.
  - intros s Hs. apply list_elem_of_singleton in Hs. subst s. right. left.
  - reflexivity.
Defined.

(** X16: the order and the repetitions of the required entries do not
    matter: two non-empty lists with the same entries give the same run,
    outcome, caches and requests alike. *)
Theorem requirement_order_is_irrelevant
    (parse : string -> option SignalAllowEntry) (normalize : string -> option string)
    (groupId : string) (required required' : list string) (opts : Opts)
    (env : Env) (st : Caches)
    (Hrequired : required <> [])
    (Hsame : forall s, s ∈ required <-> s ∈ required') :
  checkGroupHasRequiredMember parse normalize groupId required opts env st
  = checkGroupHasRequiredMember parse normalize groupId required' opts env st.
Proof.
  assert (Hrequired' : required' <> []).
  { destruct required as [|s l]; [congruence |]. intros ->.
    pose proof (proj1 (Hsame s) ltac:(left)) as Hin. inversion Hin. }
  rewrite !checkGroup_run by assumption.
  destruct (decisionFresh st _ (clock env)); [reflexivity |].
  cbv zeta.
  destruct (outcome (getCachedGroups opts false env st)) as [groups | e];
    [| reflexivity].
  now rewrite (gateDecision_same_elements parse normalize groupId required required').
Qed.

Lemma requirement_order_is_irrelevant_witness :
  checkGroupHasRequiredMember Sample.parse Sample.normalize
    "def456" ["+15552222222"; "*"] Sample.opts
    (Sample.serving Sample.directory Sample.t0) initial
  = checkGroupHasRequiredMember Sample.parse Sample.normalize
      "def456" ["*"; "+15552222222"; "*"] Sample.opts
      (Sample.serving Sample.directory Sample.t0) initial.
Proof.
  apply (requirement_order_is_irrelevant Sample.parse Sample.normalize
           "def456" ["+15552222222"; "*"] ["*"; "+15552222222"; "*"]).
  - discriminate.
  - intros s. rewrite !elem_of_cons, !elem_of_nil. tauto.
Defined.

(** X17: a reply that is not an array is taken for the empty group list.
    The check, reaching the daemon, then returns false and stores false;
    the resolver fails with the not-found error for zero known groups;
    and in both cases the empty list becomes the snapshot. *)
Theorem non_array_reply_is_empty_directory
    (parse : string -> option SignalAllowEntry) (normalize : string -> option string)
    (groupId : string) (required : list string) (opts : Opts)
    (env : Env) (st : Caches)
    (Hreply : daemon env (listGroupsCall opts) = Resolved NotAnArray) :
  let accountKey := buildAccountKey (baseUrl opts) (account opts) in
  (required <> [] ->
   decisionFresh st (decisionKey opts groupId) (clock env) = None ->
   snapshotFresh st accountKey (clock env) = None ->
   let r := checkGroupHasRequiredMember parse normalize groupId required opts env st in
   outcome r = Returned false
   /\ membershipCache (caches r) !! decisionKey opts groupId
      = Some (Decision.mk false (clock env))
   /\ cachedGroups (caches r) = Some [])
  /\
  (exactInFreshSnapshot st accountKey (clock env) groupId = None ->
   let r := resolveSignalGroupId groupId opts env st in
   outcome r = Thrown (Error (notFoundMessage groupId 0))
   /\ cachedGroups (caches r) = Some []).
Proof.
  cbv zeta. split.
  - intros Hrequired Hmiss Hstale.
    rewrite checkGroup_run by exact Hrequired. rewrite Hmiss. cbv zeta.
    rewrite getCachedGroups_run. cbv zeta. rewrite Hstale, Hreply. cbn.
    repeat split. apply lookup_insert_eq.
  - intros Hslow. rewrite resolve_run. cbv zeta. rewrite Hslow.
    rewrite getCachedGroups_run. cbv zeta. rewrite Hreply. now cbn.
Qed.

Lemma non_array_reply_is_empty_directory_witness :
  let env := {| clock := Sample.t0; daemon := fun _ => Resolved NotAnArray |} in
  (let r := checkGroupHasRequiredMember Sample.parse Sample.normalize
              "def456" ["*"] Sample.opts env initial in
   outcome r = Returned false
   /\ membershipCache (caches r) !! decisionKey Sample.opts "def456"
      = Some (Decision.mk false Sample.t0)
   /\ cachedGroups (caches r) = Some [])
  /\
  (let r := resolveSignalGroupId "def456" Sample.opts env initial in
   outcome r = Thrown (Error (notFoundMessage "def456" 0))
   /\ cachedGroups (caches r) = Some []).
Proof.
  intros env.
  destruct (non_array_reply_is_empty_directory Sample.parse Sample.normalize
              "def456" ["*"] Sample.opts env initial) as [Hcheck Hresolve].
  - reflexivity.
  - split.
    + apply Hcheck; [discriminate | reflexivity | reflexivity].
    + apply Hresolve. reflexivity.
Defined.

(** ** Invalidation and the test helpers, beyond the claims *)

Section InvalidationFacts.

(** The decision map after an invalidation, key by key. *)
Lemma invalidate_lookup (groupId : option string) (env : Env) (st : Caches) (key : string) :
  membershipCache (caches (invalidateGroupMembershipCache groupId env st)) !! key
  = match groupId with
    | Some g =>
        if (JS.truthy g && negb (JS.endsWith key ("|" +:+ g)))%bool
        then membershipCache st !! key else None
    | None => None
    end.
Proof.
  rewrite invalidate_run. cbn. destruct groupId as [g|]; [| apply lookup_empty].
  destruct (JS.truthy g); cbn; [| apply lookup_empty].
  rewrite deleteEndingWith_lookup. now destruct (JS.endsWith key ("|" +:+ g)).
Qed.

Lemma invalidate_directory (groupId : option string) (env : Env) (st : Caches) :
  cachedGroups (caches (invalidateGroupMembershipCache groupId env st)) = cachedGroups st
  /\ cacheAccountKey (caches (invalidateGroupMembershipCache groupId env st))
     = cacheAccountKey st
  /\ cachedAt (caches (invalidateGroupMembershipCache groupId env st)) = 0.
Proof. rewrite invalidate_run. now cbn. Qed.

Lemma caches_eq (a b : Caches) :
  cachedGroups a = cachedGroups b -> cachedAt a = cachedAt b ->
  cacheAccountKey a = cacheAccountKey b -> membershipCache a = membershipCache b ->
  a = b.
Proof. destruct a, b. cbn. now intros -> -> -> ->. Qed.

End InvalidationFacts.

(** X18: invalidation keeps the group list and only sets its timestamp
    to 0.  A read for the snapshot's account key whose clock is below
    five minutes (as under a test clock started at 0) is therefore still
    served the old list, with no RPC. *)
Theorem invalidation_keeps_list_for_early_clocks
    (groupId : option string) (opts : Opts) (env env' : Env) (st : Caches)
    (cached : list SignalGroupEntry)
    (Hheld : cachedGroups st = Some cached)
    (Hkey : cacheAccountKey st = buildAccountKey (baseUrl opts) (account opts))
    (Hearly : clock env' < GROUP_ID_CACHE_TTL_MS) :
  let r := invalidateGroupMembershipCache groupId env st in
  getCachedGroups opts false env' (caches r)
  = {| outcome := Returned cached; caches := caches r; rpcs := [] |}.
Proof.
  cbv zeta. destruct (invalidate_directory groupId env st) as (Hlist & Hk & Hat).
  rewrite getCachedGroups_run. cbv zeta.
  rewrite (snapshotFresh_held _ _ (clock env') cached); try congruence.
  rewrite Hat. lia.
Qed.

Lemma invalidation_keeps_list_for_early_clocks_witness :
  let st := caches (getCachedGroups Sample.opts false
                      (Sample.serving Sample.directory 1000) initial) in
  let r := invalidateGroupMembershipCache None (Sample.serving [] 2000) st in
  getCachedGroups Sample.opts false (Sample.serving [] 3000) (caches r)
  = {| outcome := Returned Sample.directory; caches := caches r; rpcs := [] |}.
Proof.
  intros st.
  apply (invalidation_keeps_list_for_early_clocks None Sample.opts
           (Sample.serving [] 2000) (Sample.serving [] 3000) st Sample.directory);
    reflexivity.
Defined.

(** X19: invalidations commute and are idempotent: invalidating two
    groups in either order leaves the same caches, and invalidating a
    group a second time changes nothing. *)
Theorem invalidations_commute
    (g1 g2 : option string) (env1 env2 env3 env4 : Env) (st : Caches) :
  caches (invalidateGroupMembershipCache g2 env2
            (caches (invalidateGroupMembershipCache g1 env1 st)))
  = caches (invalidateGroupMembershipCache g1 env4
              (caches (invalidateGroupMembershipCache g2 env3 st)))
  /\ caches (invalidateGroupMembershipCache g1 env2
               (caches (invalidateGroupMembershipCache g1 env1 st)))
     = caches (invalidateGroupMembershipCache g1 env1 st).
Proof.
  split; apply caches_eq;
    repeat match goal with
           | |- context [cachedGroups (caches (invalidateGroupMembershipCache ?g ?e ?s))] =>
               rewrite (proj1 (invalidate_directory g e s))
           | |- context [cacheAccountKey (caches (invalidateGroupMembershipCache ?g ?e ?s))] =>
               rewrite (proj1 (proj2 (invalidate_directory g e s)))
           | |- context [cachedAt (caches (invalidateGroupMembershipCache ?g ?e ?s))] =>
               rewrite (proj2 (proj2 (invalidate_directory g e s)))
           end; try reflexivity.
  - apply map_eq. intros key. rewrite !invalidate_lookup.
    destruct g1 as [a|], g2 as [b|]; try reflexivity.
    + destruct (JS.truthy a && negb (JS.endsWith key ("|" +:+ a)))%bool,
               (JS.truthy b && negb (JS.endsWith key ("|" +:+ b)))%bool;
        reflexivity.
    + now destruct (JS.truthy a && negb (JS.endsWith key ("|" +:+ a)))%bool.
    + now destruct (JS.truthy b && negb (JS.endsWith key ("|" +:+ b)))%bool.
  - apply map_eq. intros key. rewrite !invalidate_lookup.
    destruct g1 as [a|]; [| reflexivity].
    now destruct (JS.truthy a && negb (JS.endsWith key ("|" +:+ a)))%bool.
Qed.

(** X20: the size of the decision cache, as [_getMembershipCacheSize]
    reports it, grows by at most one in a call of the membership check
    and never shrinks in one; an invalidation never makes it grow. *)
Theorem decision_cache_size_steps
    (parse : string -> option SignalAllowEntry) (normalize : string -> option string)
    (groupId : string) (required : list string) (opts : Opts)
    (invalidated : option string) (env env' : Env) (st : Caches) :
  let sizeOf := fun c => outcome (_getMembershipCacheSize env' c) in
  exists before afterCheck afterInvalidate : nat,
    sizeOf st = Returned before
    /\ sizeOf (caches (checkGroupHasRequiredMember parse normalize
                         groupId required opts env st)) = Returned afterCheck
    /\ sizeOf (caches (invalidateGroupMembershipCache invalidated env st))
       = Returned afterInvalidate
    /\ (before <= afterCheck <= S before)%nat
    /\ (afterInvalidate <= before)%nat.
Proof.
  cbv zeta.
  exists (size (membershipCache st)),
         (size (membershipCache
                  (caches (checkGroupHasRequiredMember parse normalize
                             groupId required opts env st)))),
         (size (membershipCache
                  (caches (invalidateGroupMembershipCache invalidated env st)))).
  split; [reflexivity |]. split; [reflexivity |]. split; [reflexivity |]. split.
  - destruct required as [|x xs]; [cbn; lia |].
    rewrite checkGroup_run by discriminate.
    destruct (decisionFresh st _ (clock env)); [cbn; lia |].
    cbv zeta.
    pose proof (getCachedGroups_keeps_decisions opts false env st) as Hkeeps.
    destruct (outcome (getCachedGroups opts false env st));
      cbn [caches membershipCache withDecision]; rewrite Hkeeps; [| lia].
    destruct (membershipCache st !! decisionKey opts groupId) as [held|] eqn:Hheld.
    + rewrite map_size_insert_Some by (rewrite Hheld; eauto). lia.
    + rewrite map_size_insert_None by exact Hheld. lia.
  - apply map_subseteq_size, map_subseteq_spec. intros key d.
    rewrite invalidate_lookup. destruct invalidated as [g|]; [| discriminate].
    now destruct (JS.truthy g && negb (JS.endsWith key ("|" +:+ g)))%bool.
Qed.

(** X21: [_resetCaches] brings the module back to its initial state from
    any state; the next membership check with a non-empty requirement
    list and the next resolution then each go to the daemon, whatever was
    cached before. *)
Theorem reset_forgets_everything
    (parse : string -> option SignalAllowEntry) (normalize : string -> option string)
    (groupId : string) (required : list string) (opts : Opts)
    (env0 env : Env) (st : Caches)
    (Hrequired : required <> []) :
  let fresh := caches (_resetCaches env0 st) in
  fresh = initial
  /\ outcome (_getMembershipCacheSize env fresh) = Returned 0%nat
  /\ rpcs (checkGroupHasRequiredMember parse normalize groupId required opts env fresh)
     = [listGroupsCall opts]
  /\ rpcs (resolveSignalGroupId groupId opts env fresh) = [listGroupsCall opts].
Proof.
  cbv zeta. change (caches (_resetCaches env0 st)) with initial.
  split; [reflexivity |]. split; [reflexivity |]. split.
  - rewrite checkGroup_run by exact Hrequired.
    change (decisionFresh initial (decisionKey opts groupId) (clock env))
      with (@None bool).
    cbv zeta. rewrite getCachedGroups_run. cbv zeta.
    change (snapshotFresh initial _ (clock env)) with (@None (list SignalGroupEntry)).
    destruct (daemon env (listGroupsCall opts)); reflexivity.
  - rewrite resolve_run. cbv zeta.
    change (exactInFreshSnapshot initial _ (clock env) groupId)
      with (@None SignalGroupEntry).
    rewrite getCachedGroups_run. cbv zeta.
    destruct (daemon env (listGroupsCall opts)); reflexivity.
Qed.

Lemma reset_forgets_everything_witness :
  let warm := caches (checkGroupHasRequiredMember Sample.parse Sample.normalize
                        "def456" ["+15552222222"] Sample.opts
                        (Sample.serving Sample.directory Sample.t0) initial) in
  let fresh := caches (_resetCaches (Sample.serving [] Sample.t0) warm) in
  fresh = initial
  /\ outcome (_getMembershipCacheSize (Sample.serving [] (Sample.t0 + 1)) fresh)
     = Returned 0%nat
  /\ rpcs (checkGroupHasRequiredMember Sample.parse Sample.normalize
             "def456" ["+15552222222"] Sample.opts
             (Sample.serving [] (Sample.t0 + 1)) fresh)
     = [listGroupsCall Sample.opts]
  /\ rpcs (resolveSignalGroupId "def456" Sample.opts
             (Sample.serving [] (Sample.t0 + 1)) fresh)
     = [listGroupsCall Sample.opts].
Proof.
  intros warm.
  apply (reset_forgets_everything Sample.parse Sample.normalize
           "def456" ["+15552222222"] Sample.opts
           (Sample.serving [] Sample.t0) (Sample.serving [] (Sample.t0 + 1)) warm).
  discriminate.
Defined.



(** ** Keys and staleness *)

Section KeyInjectivity.

Lemma app_inv_tail_s (a c s : string) : a +:+ s = c +:+ s -> a = c.
Proof.
  revert c. induction a as [|x a IH]; intros [|y c] Heq;
    rewrite ?app_cons, ?app_empty_l in Heq.
  - reflexivity.
  - exfalso. apply (f_equal String.length) in Heq. simpl in Heq.
    rewrite length_app in Heq. lia.
  - exfalso. apply (f_equal String.length) in Heq. simpl in Heq.
    rewrite length_app in Heq. lia.
  - injection Heq as -> Htl. f_equal. now apply IH.
Qed.

End KeyInjectivity.

(** X23: decisions of different groups never share an entry.  For group
    ids without the key delimiter, two calls have the same decision key
    only if they name the same group id and have the same account key. *)
Theorem decisionKey_separates_groups
    (opts opts' : Opts) (groupId groupId' : string)
    (Hfree : delimiterFree groupId)
    (Hfree' : delimiterFree groupId')
    (Hkey : decisionKey opts groupId = decisionKey opts' groupId') :
  groupId = groupId'
  /\ buildAccountKey (baseUrl opts) (account opts)
     = buildAccountKey (baseUrl opts') (account opts').
Proof.
  unfold decisionKey in Hkey.
  pose proof (key_tail_unique _ _ _ _ Hfree Hfree' Hkey) as Hid.
  split; [exact Hid |]. subst groupId'. now apply app_inv_tail_s in Hkey.
Qed.

Lemma decisionKey_separates_groups_witness :
  "def456" = "def456"
  /\ buildAccountKey (baseUrl Sample.opts) (account Sample.opts)
     = buildAccountKey "http://localhost:8080" (Some "+10000000000").
Proof.
  apply (decisionKey_separates_groups Sample.opts
           {| baseUrl := "http://localhost:8080"; account := Some "+10000000000";
              timeoutMs := Some 1 |} "def456" "def456"); reflexivity.
Defined.

(** X24: while the snapshot for the call's account key is younger than
    five minutes, the membership check does not consult the daemon: it
    issues no RPC and its run is the same whatever the daemon would
    answer.  A membership change is thus not seen through an expired
    decision alone; it takes an invalidation or the snapshot's expiry. *)
Theorem check_ignores_daemon_while_snapshot_fresh
    (parse : string -> option SignalAllowEntry) (normalize : string -> option string)
    (groupId : string) (required : list string) (opts : Opts)
    (env : Env) (st : Caches) (cached : list SignalGroupEntry)
    (Hheld : cachedGroups st = Some cached)
    (Hkey : cacheAccountKey st = buildAccountKey (baseUrl opts) (account opts))
    (Hage : clock env - cachedAt st < GROUP_ID_CACHE_TTL_MS) :
  let r := checkGroupHasRequiredMember parse normalize groupId required opts env st in
  rpcs r = []
  /\ (exists allowed, outcome r = Returned allowed)
  /\ forall other : RpcCall -> RpcReply,
       checkGroupHasRequiredMember parse normalize groupId required opts
         {| clock := clock env; daemon := other |} st = r.
Proof.
  cbv zeta. destruct required as [|x xs].
  - rewrite checkGroup_empty. repeat split; eauto.
  - rewrite checkGroup_run by discriminate.
    assert (Hrun : forall other,
      checkGroupHasRequiredMember parse normalize groupId (x :: xs) opts
        {| clock := clock env; daemon := other |} st
      = match decisionFresh st (decisionKey opts groupId) (clock env) with
        | Some allowed => {| outcome := Returned allowed; caches := st; rpcs := [] |}
        | None =>
            {| outcome := Returned (gateDecision parse normalize groupId (x :: xs) cached);
               caches := withDecision st (decisionKey opts groupId)
                           (gateDecision parse normalize groupId (x :: xs) cached)
                           (clock env);
               rpcs := [] |}
        end).
    { intros other. rewrite checkGroup_run by discriminate. cbn [clock].
      destruct (decisionFresh st _ (clock env)); [reflexivity |].
      cbv zeta. rewrite getCachedGroups_run. cbv zeta. cbn [clock].
      now rewrite (snapshotFresh_held st _ (clock env) cached Hheld Hkey Hage). }
    destruct (decisionFresh st _ (clock env)) as [allowed|] eqn:Hfresh.
    + split; [reflexivity |]. split; [now exists allowed |]. exact Hrun.
    + cbv zeta. rewrite getCachedGroups_run. cbv zeta.
      rewrite (snapshotFresh_held st _ (clock env) cached Hheld Hkey Hage).
      cbn [outcome rpcs caches]. split; [reflexivity |].
      split; [eexists; reflexivity |]. exact Hrun.
Qed.

Lemma check_ignores_daemon_while_snapshot_fresh_witness :
  let st := caches (checkGroupHasRequiredMember Sample.parse Sample.normalize
                      "def456" ["+15552222222"] Sample.opts
                      (Sample.serving Sample.directory Sample.t0) initial) in
  let removed := Sample.serving [Sample.makeGroup "def456" []] (Sample.t0 + 60000) in
  let r := checkGroupHasRequiredMember Sample.parse Sample.normalize
             "def456" ["+15552222222"] Sample.opts removed st in
  rpcs r = [] /\ outcome r = Returned true.
Proof.
  intros st removed r. subst r.
  destruct (check_ignores_daemon_while_snapshot_fresh Sample.parse Sample.normalize
              "def456" ["+15552222222"] Sample.opts removed st Sample.directory)
    as (Hrpcs & _ & _).
  - reflexivity.
  - reflexivity.
  - reflexivity.
  - split; [exact Hrpcs | reflexivity].
Defined.
